(** * FileOrganizerPro: the organization engine, embedded and verified

    A shallow embedding of the parts of the repository that the
    specification's testable properties talk about:

    - [src/undo_manager.py]                                   (transaction log)
    - [src/fileorganizer_pro/services/scanning_service.py]     (scanner)
    - [src/fileorganizer_pro/services/categorization_service.py]
    - [src/fileorganizer_pro/services/duplicate_service.py]
    - [src/fileorganizer_pro/domain/entities/__init__.py]
    - [src/file_organizer_pro.py], [.../filesystem/file_reader_writer.py]

    Python objects become records, [self] and the file system are passed
    explicitly, and a call that may raise returns an [outcome]. *)

From Stdlib Require Import ZArith Lia Ascii String.
From stdpp Require Import base option list strings pretty gmap.

Open Scope string_scope.
Open Scope nat_scope.
Open Scope list_scope.
Open Scope stdpp_scope.

(** ** Python outcomes *)

(** The result of a Python call: a returned value or a raised exception
    carrying its message ([str(e)]). *)
Inductive outcome (A : Type) : Type :=
  | Return (a : A)
  | Raise (msg : string).
Arguments Return {A} a.
Arguments Raise {A} msg.

(** A [for] loop over [l] whose body may raise: the exception leaves the
    loop, and the remaining elements are not visited. *)
Fixpoint for_each {A B} (body : B → A → outcome B) (l : list A) (acc : B)
    : outcome B :=
  match l with
  | [] => Return acc
  | x :: l =>
      match body acc x with
      | Return acc => for_each body l acc
      | Raise e => Raise e
      end
  end.

(** ** Strings and paths

    [str.lower], [str.isalnum] and the [name] and [suffix] properties of
    [pathlib.PurePath], on ASCII strings and POSIX paths. *)

Definition ascii_lower (c : ascii) : ascii :=
  let n := nat_of_ascii c in
  if (65 <=? n) && (n <=? 90) then ascii_of_nat (n + 32) else c.

Fixpoint lower (s : string) : string :=
  match s with
  | EmptyString => EmptyString
  | String c s => String (ascii_lower c) (lower s)
  end.

Definition ascii_isalnum (c : ascii) : bool :=
  let n := nat_of_ascii c in
  ((48 <=? n) && (n <=? 57)) || ((65 <=? n) && (n <=? 90))
  || ((97 <=? n) && (n <=? 122)).

Fixpoint all_chars (p : ascii → bool) (s : string) : bool :=
  match s with
  | EmptyString => true
  | String c s => p c && all_chars p s
  end.

(** [s.isalnum()]: false on the empty string. *)
Definition isalnum (s : string) : bool :=
  negb (String.eqb s "") && all_chars ascii_isalnum s.

(** The text after the last occurrence of [sep], when there is one. *)
Fixpoint after_last (sep : ascii) (s : string) : option string :=
  match s with
  | EmptyString => None
  | String c s' =>
      match after_last sep s' with
      | Some t => Some t
      | None => if Ascii.eqb c sep then Some s' else None
      end
  end.

(** [s.endswith(c)]. *)
Fixpoint ends_with (c : ascii) (s : string) : bool :=
  match s with
  | EmptyString => false
  | String x EmptyString => Ascii.eqb x c
  | String _ s' => ends_with c s'
  end.

(** [s.rstrip('/')]. *)
Fixpoint rstrip_slash (s : string) : string :=
  match s with
  | EmptyString => EmptyString
  | String c s' =>
      match rstrip_slash s' with
      | EmptyString => if Ascii.eqb c "/" then EmptyString else String c EmptyString
      | t => String c t
      end
  end.

(** [PurePath(p).name] for a path without [.] components: the final
    path component; [pathlib] drops trailing separators first, so the
    name of [/inbox/] is [inbox] and that of [/] is empty. *)
Definition path_name (p : string) : string :=
  let q := rstrip_slash p in
  default q (after_last "/" q).

(** [PurePath(p).suffix]: with [i = name.rfind('.')], the text
    [name[i:]] when [0 < i < len(name) - 1] and the empty string
    otherwise. *)
Definition path_suffix (p : string) : string :=
  let name := path_name p in
  match after_last "." name with
  | Some t =>
      if (String.length t + 1 <? String.length name) && (0 <? String.length t)
      then "." +:+ t else ""
  | None => ""
  end.

(** [os.path.join(a, b)] for a relative [b] (the name of a directory
    entry): a separator is put between the two unless [a] is empty or
    already ends in one. *)
Definition path_join (a b : string) : string :=
  if String.eqb a "" || ends_with "/" a then a +:+ b else a +:+ "/" +:+ b.

(** ** The operating-system interface

    [pathlib] and [shutil] are not part of the repository; the code only
    calls them.  They are an interface here.  A mutating call either
    returns with a new file system or raises an [OSError], and a raising
    call may still have changed the file system. *)
Class FileSystem (FS : Type) := {
  (** [Path(p).exists()] *)
  path_exists : string → FS → bool;
  (** [Path(p).parent.mkdir(parents=True, exist_ok=True)] *)
  parent_mkdir : string → FS → outcome unit * FS;
  (** [shutil.move(src, dst)] *)
  shutil_move : string → string → FS → outcome unit * FS;
  (** [shutil.copy2(src, dst)] *)
  shutil_copy2 : string → string → FS → outcome unit * FS;
  (** [Path(p).unlink()] *)
  path_unlink : string → FS → outcome unit * FS;
}.

(** A small concrete file system used to run the code on examples: a
    finite map from paths to contents plus a set of paths on which every
    mutating call raises [PermissionError]. Directories are not tracked. *)
Module SimpleFS.

Record t := mk {
  contents : gmap string string;
  denied : gset string;
}.

Definition exists_ (p : string) (fs : t) : bool :=
  bool_decide (is_Some (contents fs !! p)).

Definition mkdir (p : string) (fs : t) : outcome unit * t :=
  if bool_decide (p ∈ denied fs) then (Raise "Permission denied", fs)
  else (Return (), fs).

Definition copy2 (src dst : string) (fs : t) : outcome unit * t :=
  if bool_decide (dst ∈ denied fs) then (Raise "Permission denied", fs)
  else match contents fs !! src with
       | None => (Raise "No such file or directory", fs)
       | Some c => (Return (), mk (<[dst := c]> (contents fs)) (denied fs))
       end.

Definition unlink (p : string) (fs : t) : outcome unit * t :=
  if bool_decide (p ∈ denied fs) then (Raise "Permission denied", fs)
  else match contents fs !! p with
       | None => (Raise "No such file or directory", fs)
       | Some _ => (Return (), mk (delete p (contents fs)) (denied fs))
       end.

Definition move (src dst : string) (fs : t) : outcome unit * t :=
  if bool_decide (src ∈ denied fs) || bool_decide (dst ∈ denied fs)
  then (Raise "Permission denied", fs)
  else match contents fs !! src with
       | None => (Raise "No such file or directory", fs)
       | Some c =>
           (Return (), mk (<[dst := c]> (delete src (contents fs))) (denied fs))
       end.

Definition of_list (l : list (string * string)) : t :=
  mk (list_to_map l) ∅.

End SimpleFS.

#[export] Instance simple_fs : FileSystem SimpleFS.t := {
  path_exists := SimpleFS.exists_;
  parent_mkdir := SimpleFS.mkdir;
  shutil_move := SimpleFS.move;
  shutil_copy2 := SimpleFS.copy2;
  path_unlink := SimpleFS.unlink;
}.

(** ** Bounded deques

    [collections.deque(maxlen=n)], used as a stack.  The list holds the
    right end of the deque first: its head is [d[-1]], the most recent
    entry, and the entry evicted on overflow is the last of the list. *)
Section Deque.
Context {A : Type}.

(** [d.append(x)]: once the deque holds [maxlen] items the one at the
    opposite (left, oldest) end is discarded. *)
Definition deque_append (maxlen : nat) (d : list A) (x : A) : list A :=
  take maxlen (x :: d).

(** [d.pop()]: removes and returns the rightmost item. *)
Definition deque_pop (d : list A) : option (A * list A) :=
  match d with
  | [] => None
  | x :: d' => Some (x, d')
  end.

End Deque.

(** ** [src/undo_manager.py] *)
Module UndoManager.

(** [class UndoOperation].  [timestamp] is the [datetime] as a count of
    microseconds; the [id] attribute is derived from [operation_type]
    and [timestamp] and is not stored. [metadata] is a [dict] keyed by
    strings. *)
Record UndoOperation := {
  operation_type : string;
  source : string;
  destination : string;
  metadata : gmap string string;
  timestamp : Z;
}.

(** The attributes of [class UndoManager]. [history_file] holds what
    [save_history] wrote last: the two stacks ([save_history] catches its
    own exceptions; the write is taken to succeed). *)
Record t := {
  max_history : nat;
  undo_stack : list UndoOperation;
  redo_stack : list UndoOperation;
  current_job_operations : list UndoOperation;
  current_job_id : option string;
  history_file : option (list UndoOperation * list UndoOperation);
}.

(** [__init__] with no persisted history. *)
Definition init (max_history : nat) : t :=
  {| max_history := max_history;
     undo_stack := [];
     redo_stack := [];
     current_job_operations := [];
     current_job_id := None;
     history_file := None |}.

(** A [deque(maxlen=max_history)] never holds more than [max_history]
    entries. *)
Definition bounded (m : t) : Prop :=
  length (undo_stack m) ≤ max_history m ∧
  length (redo_stack m) ≤ max_history m.

Definition save_history (m : t) : t :=
  {| max_history := max_history m;
     undo_stack := undo_stack m;
     redo_stack := redo_stack m;
     current_job_operations := current_job_operations m;
     current_job_id := current_job_id m;
     history_file := Some (undo_stack m, redo_stack m) |}.

Definition set_stacks (undo redo : list UndoOperation) (m : t) : t :=
  {| max_history := max_history m;
     undo_stack := undo;
     redo_stack := redo;
     current_job_operations := current_job_operations m;
     current_job_id := current_job_id m;
     history_file := history_file m |}.

Definition start_job (job_id : string) (m : t) : t :=
  {| max_history := max_history m;
     undo_stack := undo_stack m;
     redo_stack := redo_stack m;
     current_job_operations := [];
     current_job_id := Some job_id;
     history_file := history_file m |}.

(** [now] is the reading of [datetime.now()] taken by the
    [UndoOperation] constructor. *)
Definition record_operation (ty src dst : string)
    (md : gmap string string) (now : Z) (m : t) : t :=
  let operation :=
    {| operation_type := ty; source := src; destination := dst;
       metadata := md; timestamp := now |} in
  {| max_history := max_history m;
     undo_stack := deque_append (max_history m) (undo_stack m) operation;
     redo_stack := [];
     current_job_operations := current_job_operations m ++ [operation];
     current_job_id := current_job_id m;
     history_file := history_file m |}.

Definition end_job (save_to_disk : bool) (m : t) : t :=
  let m := if save_to_disk then save_history m else m in
  {| max_history := max_history m;
     undo_stack := undo_stack m;
     redo_stack := redo_stack m;
     current_job_operations := [];
     current_job_id := None;
     history_file := history_file m |}.

(** What [undo_last_operation] reports when the reversal did not
    succeed. *)
Definition reported (r : outcome bool) : outcome bool :=
  match r with
  | Raise e => Raise ("Undo failed: " +:+ e)
  | Return _ => Return false
  end.

Section WithFileSystem.
Context {FS : Type} `{FileSystem FS}.

(** Run [body]; when it raises, wrap the message as the [except]
    clause of [_reverse_operation] does. *)
Definition reraise {A} (pre : string) (r : outcome A * FS) : outcome A * FS :=
  match r with
  | (Return a, fs) => (Return a, fs)
  | (Raise e, fs) => (Raise (pre +:+ e), fs)
  end.

Definition _reverse_operation (operation : UndoOperation) (fs : FS)
    : outcome bool * FS :=
  reraise ("Failed to reverse " +:+ operation_type operation +:+ ": ")
    (if String.eqb (operation_type operation) "move" then
       if path_exists (destination operation) fs then
         match parent_mkdir (source operation) fs with
         | (Raise e, fs) => (Raise e, fs)
         | (Return _, fs) =>
             match shutil_move (destination operation) (source operation) fs with
             | (Raise e, fs) => (Raise e, fs)
             | (Return _, fs) => (Return true, fs)
             end
         end
       else (Return false, fs)
     else if String.eqb (operation_type operation) "copy" then
       if path_exists (destination operation) fs then
         match path_unlink (destination operation) fs with
         | (Raise e, fs) => (Raise e, fs)
         | (Return _, fs) => (Return true, fs)
         end
       else (Return false, fs)
     else if String.eqb (operation_type operation) "delete" then
       match metadata operation !! "backup_path" with
       | Some backup_path =>
           if negb (String.eqb backup_path "") && path_exists backup_path fs then
             match parent_mkdir (destination operation) fs with
             | (Raise e, fs) => (Raise e, fs)
             | (Return _, fs) =>
                 match shutil_copy2 backup_path (destination operation) fs with
                 | (Raise e, fs) => (Raise e, fs)
                 | (Return _, fs) => (Return true, fs)
                 end
             end
           else (Return false, fs)
       | None => (Return false, fs)
       end
     else (Return false, fs)).

(** [except Exception: return False]. *)
Definition swallow (r : outcome bool * FS) : bool * FS :=
  match r with
  | (Return b, fs) => (b, fs)
  | (Raise _, fs) => (false, fs)
  end.

Definition _apply_operation (operation : UndoOperation) (fs : FS) : bool * FS :=
  swallow
    (if String.eqb (operation_type operation) "move" then
       if path_exists (source operation) fs then
         match parent_mkdir (destination operation) fs with
         | (Raise e, fs) => (Raise e, fs)
         | (Return _, fs) =>
             match shutil_move (source operation) (destination operation) fs with
             | (Raise e, fs) => (Raise e, fs)
             | (Return _, fs) => (Return true, fs)
             end
         end
       else (Return false, fs)
     else if String.eqb (operation_type operation) "copy" then
       if path_exists (source operation) fs then
         match parent_mkdir (destination operation) fs with
         | (Raise e, fs) => (Raise e, fs)
         | (Return _, fs) =>
             match shutil_copy2 (source operation) (destination operation) fs with
             | (Raise e, fs) => (Raise e, fs)
             | (Return _, fs) => (Return true, fs)
             end
         end
       else (Return false, fs)
     else (Return false, fs)).

Definition undo_last_operation (m : t) (fs : FS) : outcome bool * t * FS :=
  match deque_pop (undo_stack m) with
  | None => (Return false, m, fs)
  | Some (operation, undo) =>
      match _reverse_operation operation fs with
      | (Return true, fs) =>
          let redo := deque_append (max_history m) (redo_stack m) operation in
          (Return true, save_history (set_stacks undo redo m), fs)
      | (Return false, fs) =>
          let undo := deque_append (max_history m) undo operation in
          (Return false, set_stacks undo (redo_stack m) m, fs)
      | (Raise e, fs) =>
          let undo := deque_append (max_history m) undo operation in
          (Raise ("Undo failed: " +:+ e), set_stacks undo (redo_stack m) m, fs)
      end
  end.

Definition redo_last_operation (m : t) (fs : FS) : bool * t * FS :=
  match deque_pop (redo_stack m) with
  | None => (false, m, fs)
  | Some (operation, redo) =>
      match _apply_operation operation fs with
      | (true, fs) =>
          let undo := deque_append (max_history m) (undo_stack m) operation in
          (true, save_history (set_stacks undo redo m), fs)
      | (false, fs) =>
          let redo := deque_append (max_history m) redo operation in
          (false, set_stacks (undo_stack m) redo m, fs)
      end
  end.

(** The dictionary [stats] built by [undo_last_job]. *)
Record Stats := {
  total : nat;
  successful : nat;
  failed : nat;
  errors : list string;
}.

(** The three messages [undo_last_job] can return; [Undone s t] is
    the f-string "Undone s/t operations". *)
Inductive Message :=
  | NoOperationsToUndo
  | NoJobOperationsFound
  | Undone (successful total : nat).

Record JobResult := {
  success : bool;
  stats : option Stats;
  message : Message;
}.

(** [(last_job_time - op.timestamp).total_seconds() <= 60], with the
    timestamps in microseconds. *)
Definition same_job (last_job_time : Z) (op : UndoOperation) : bool :=
  (last_job_time - timestamp op <=? 60 * 1000000)%Z.

(** The first [while] loop together with the restoring loop after it:
    pops operations while they fall in the time window; the first one
    that does not goes to [temp_stack] and is appended back.  Returns
    [job_operations] (in pop order) and the remaining undo stack. *)
Fixpoint collect_job (maxlen : nat) (last_job_time : Z)
    (undo : list UndoOperation) : list UndoOperation * list UndoOperation :=
  match undo with
  | [] => ([], [])
  | op :: undo =>
      if same_job last_job_time op then
        let '(job_operations, undo) := collect_job maxlen last_job_time undo in
        (op :: job_operations, undo)
      else ([], deque_append maxlen undo op)
  end.

(** The state the [for] loop of [undo_last_job] updates. *)
Record LoopState := {
  ls_stats : Stats;
  ls_undo : list UndoOperation;
  ls_redo : list UndoOperation;
  ls_fs : FS;
}.

(** One iteration of [for operation in job_operations]. *)
Definition reverse_step (maxlen : nat) (s : LoopState)
    (operation : UndoOperation) : LoopState :=
  let st := ls_stats s in
  match _reverse_operation operation (ls_fs s) with
  | (Return true, fs) =>
      {| ls_stats := {| total := total st; successful := successful st + 1;
                        failed := failed st; errors := errors st |};
         ls_undo := ls_undo s;
         ls_redo := deque_append maxlen (ls_redo s) operation;
         ls_fs := fs |}
  | (Return false, fs) =>
      {| ls_stats := {| total := total st; successful := successful st;
                        failed := failed st + 1; errors := errors st |};
         ls_undo := deque_append maxlen (ls_undo s) operation;
         ls_redo := ls_redo s;
         ls_fs := fs |}
  | (Raise e, fs) =>
      {| ls_stats := {| total := total st; successful := successful st;
                        failed := failed st + 1; errors := errors st ++ [e] |};
         ls_undo := deque_append maxlen (ls_undo s) operation;
         ls_redo := ls_redo s;
         ls_fs := fs |}
  end.

Definition undo_last_job (m : t) (fs : FS) : JobResult * t * FS :=
  match undo_stack m with
  | [] =>
      ({| success := false; stats := None; message := NoOperationsToUndo |},
       m, fs)
  | last :: _ =>
      let last_job_time := timestamp last in
      let '(job_operations, undo) :=
        collect_job (max_history m) last_job_time (undo_stack m) in
      match job_operations with
      | [] =>
          ({| success := false; stats := None;
              message := NoJobOperationsFound |},
           set_stacks undo (redo_stack m) m, fs)
      | _ =>
          let s0 :=
            {| ls_stats := {| total := length job_operations; successful := 0;
                              failed := 0; errors := [] |};
               ls_undo := undo; ls_redo := redo_stack m; ls_fs := fs |} in
          let s := fold_left (reverse_step (max_history m)) job_operations s0 in
          let st := ls_stats s in
          ({| success := Nat.eqb (failed st) 0;
              stats := Some st;
              message := Undone (successful st) (total st) |},
           save_history (set_stacks (ls_undo s) (ls_redo s) m),
           ls_fs s)
      end
  end.

End WithFileSystem.

(** One entry of the list [preview_undo] returns; the timestamp is kept
    as it is instead of being formatted. *)
Record PreviewEntry := {
  pv_type : string;
  pv_source : string;
  pv_destination : string;
  pv_timestamp : Z;
  pv_exists : bool;
}.

(** The dictionary [get_history_summary] returns. *)
Record HistorySummary := {
  undo_available : nat;
  redo_available : nat;
  total_operations : nat;
  summary_job_operations : nat;
}.

(** The parsed history file: the lists under the keys [undo_stack] and
    [redo_stack] (absent keys are [None]), in file order, oldest entry
    first.  Each element is the outcome of [UndoOperation.from_dict] on
    the stored dictionary, which raises on a malformed one. *)
Record HistoryData := {
  hd_undo_stack : option (list (outcome UndoOperation));
  hd_redo_stack : option (list (outcome UndoOperation));
}.

(** [for op_data in entries: stack.append(UndoOperation.from_dict(op_data))],
    stopped by the first exception. *)
Fixpoint load_entries (maxlen : nat) (entries : list (outcome UndoOperation))
    (stack : list UndoOperation) : outcome unit * list UndoOperation :=
  match entries with
  | [] => (Return (), stack)
  | Return op :: entries => load_entries maxlen entries (deque_append maxlen stack op)
  | Raise e :: _ => (Raise e, stack)
  end.

(** [load_history]. [file] is [None] when the history file does not
    exist, and otherwise the outcome of opening and parsing it; every
    exception is caught and leaves what was done so far. *)
Definition load_history (file : option (outcome HistoryData)) (m : t) : t :=
  match file with
  | None => m
  | Some (Raise _) => m
  | Some (Return data) =>
      match load_entries (max_history m) (default [] (hd_undo_stack data)) [] with
      | (Raise _, undo) => set_stacks undo (redo_stack m) m
      | (Return _, undo) =>
          let '(_, redo) :=
            load_entries (max_history m) (default [] (hd_redo_stack data)) [] in
          set_stacks undo redo m
      end
  end.

Definition get_history_summary (m : t) : HistorySummary :=
  {| undo_available := length (undo_stack m);
     redo_available := length (redo_stack m);
     total_operations := length (undo_stack m) + length (redo_stack m);
     summary_job_operations := length (current_job_operations m) |}.

Section Preview.
Context {FS : Type} `{FileSystem FS}.

(** [preview_undo]: the entries [undo_stack[-1]], [undo_stack[-2]], ...,
    [min(count, len(undo_stack))] of them. *)
Definition preview_undo (count : Z) (m : t) (fs : FS) : list PreviewEntry :=
  let n := Z.to_nat (Z.min count (Z.of_nat (length (undo_stack m)))) in
  (λ op, {| pv_type := operation_type op;
            pv_source := source op;
            pv_destination := destination op;
            pv_timestamp := timestamp op;
            pv_exists := path_exists (destination op) fs |})
  <$> take n (undo_stack m).

End Preview.
End UndoManager.


(** ** [src/fileorganizer_pro/domain/value_objects] and [domain/entities] *)

(** [class FileHash]: the constructor validates the digest. *)
Module FileHash.
Record t := { digest : string; algorithm : string }.

Definition new (digest algorithm : string) : outcome t :=
  if String.eqb digest "" then Raise "Hash digest cannot be empty"
  else if negb (isalnum digest) then Raise ("Invalid hash format: " +:+ digest)
  else Return {| digest := digest; algorithm := algorithm |}.

(** The generated [__eq__]: both fields are compared. *)
Definition eqb (a b : t) : bool :=
  String.eqb (digest a) (digest b) && String.eqb (algorithm a) (algorithm b).

(** [matches]: same algorithm, digests equal up to case. *)
Definition matches (a b : t) : bool :=
  String.eqb (algorithm a) (algorithm b)
  && String.eqb (lower (digest a)) (lower (digest b)).
End FileHash.

(** [class Category]: the constructor rejects the empty name. *)
Module Category.
Record t := { name : string }.

Definition new (name : string) : outcome t :=
  if String.eqb name "" then Raise "Category name must be a non-empty string"
  else Return {| name := name |}.

(** [__eq__]: names are compared in lower case. *)
Definition eqb (a b : t) : bool := String.eqb (lower (name a)) (lower (name b)).
End Category.

(** [class FileItem]. The [FilePath] value object the item holds has two
    attributes: [path], the text it was built from, and [resolved], the
    text of [Path(path).resolve()], which follows symbolic links.  Sizes
    are bytes, times are timestamps. *)
Module FileItem.
Record t := {
  path : string;
  resolved : string;
  size : Z;
  modified : Z;
  category : option Category.t;
  hash : option FileHash.t;
}.

(** The [name] and [extension] properties: [self.path.resolved.name]
    and [self.path.resolved.suffix]. *)
Definition name (f : t) : string := path_name (resolved f).
Definition extension (f : t) : string := path_suffix (resolved f).

(** [==] on two optional values whose classes define [__eq__]. *)
Definition option_eqb {A} (eqb : A → A → bool) (a b : option A) : bool :=
  match a, b with
  | Some x, Some y => eqb x y
  | None, None => true
  | _, _ => false
  end.

(** The generated [__eq__] of the dataclass: the fields are compared in
    order, the [FilePath] by its two attributes and the category by
    [Category.__eq__]. *)
Definition eqb (a b : t) : bool :=
  String.eqb (path a) (path b) && String.eqb (resolved a) (resolved b)
  && (size a =? size b)%Z
  && (modified a =? modified b)%Z
  && option_eqb Category.eqb (category a) (category b)
  && option_eqb FileHash.eqb (hash a) (hash b).

(** [is_duplicate_of]. *)
Definition is_duplicate_of (a b : t) : bool :=
  match hash a, hash b with
  | Some ha, Some hb => FileHash.matches ha hb
  | _, _ => false
  end.
End FileItem.

Module FolderItem.
Record t := {
  path : string;
  name : string;
  created : Z;
  modified : Z;
  file_count : nat;
}.
End FolderItem.

Module ScanResult.
Record t := {
  files : list FileItem.t;
  folders : list FolderItem.t;
  total_count : nat;
  errors : list string;
}.
End ScanResult.

(** [class DuplicateGroup]; [new] is the generated constructor followed
    by [__post_init__]. *)
Module DuplicateGroup.
Record t := {
  hash : FileHash.t;
  files : list FileItem.t;
  original : option FileItem.t;
}.

Definition new (hash : FileHash.t) (files : list FileItem.t)
    (original : option FileItem.t) : outcome t :=
  if length files <? 2 then Raise "DuplicateGroup must have at least 2 files"
  else Return {| hash := hash;
                 files := files;
                 original := match original with
                             | Some o => Some o
                             | None => head files
                             end |}.

(** The [duplicates] property: [[f for f in self.files if f != self.original]]. *)
Definition duplicates (g : t) : list FileItem.t :=
  filter (λ f, negb (FileItem.option_eqb FileItem.eqb (Some f) (original g)) = true)
         (files g).

(** The [total_size] property; the [FileSize] constructor refuses a
    negative number of bytes. *)
Definition total_size (g : t) : outcome Z :=
  let total_bytes := foldr Z.add 0%Z (FileItem.size <$> duplicates g) in
  if (total_bytes <? 0)%Z then Raise "File size cannot be negative"
  else Return total_bytes.
End DuplicateGroup.

(** ** [src/fileorganizer_pro/services/scanning_service.py] *)
Module ScanningService.

(** The fields of [os.stat_result] the scanner reads. *)
Record stat_result := { st_size : Z; st_mtime : Z; st_ctime : Z }.

(** How [Path(path).resolve()] ends inside the constructor of
    [FilePath]: with the resolved path (the target, for a symbolic
    link), with an [OSError] or a [ValueError], or with another
    exception (the [RuntimeError] that Python versions before 3.13 raise
    on a symbolic link loop). *)
Inductive resolution :=
  | Resolved (p : string)
  | ResolveOSError
  | ResolveRuntimeError.

(** The text of the [TypeError] that
    [OperationFailedError(source=..., destination=...)] raises: the call
    in the last handler of [scan] leaves out the required argument
    [operation]. *)
Definition missing_operation : string :=
  "OperationFailedError.__init__() missing 1 required positional argument: 'operation'".

(** [FilePath(path)] inside [scan], for a non-empty [path]: the resolved
    path, or the text of the exception with which [scan] then ends.  The
    constructor turns an [OSError] or [ValueError] into an
    [InvalidPathError], which [scan] re-raises; any other exception
    reaches the last handler of [scan], whose [raise] statement fails
    itself. *)
Definition file_path_in_scan (path : string) (r : resolution) : outcome string :=
  match r with
  | Resolved p => Return p
  | ResolveOSError => Raise ("[INVALID_PATH] Invalid path: " +:+ path)
  | ResolveRuntimeError => Raise missing_operation
  end.

(** The directory tree [os.walk] traverses.  For every directory it
    yields and every file name it lists the scanner first builds a
    [FilePath], whose constructor resolves the path: [resolved] tells
    how.  The scanner then calls [stat] on a file
    twice, first in [_should_include_file] and then in [scan];
    [stat_filter] and [stat_item] are the outcomes of the two calls (they
    differ when the file changes or vanishes in between).  A directory
    carries the outcome of the one [stat] call made on it.  Directories
    that cannot be listed and symbolic links to directories are not
    walked by [os.walk] and do not occur in the tree. *)
#[warnings="-register-all"]
Inductive node :=
  | FileNode (name : string) (resolved : resolution)
             (stat_filter stat_item : outcome stat_result)
  | DirNode (name : string) (resolved : resolution)
            (stat_dir : outcome stat_result) (entries : list node).

(** The filter arguments of [scan]. *)
Record Filters := {
  extensions : option (gset string);
  min_size : Z;
  max_size : option Z;
  min_date : option Z;
  max_date : option Z;
}.

(** [if extensions:] is true for a set that is neither [None] nor
    empty. *)
Definition extensions_active (extensions : option (gset string)) : bool :=
  match extensions with
  | None => false
  | Some E => negb (bool_decide (E = ∅))
  end.

(** [st] is the outcome of [Path(file_path.path).stat()]. *)
Definition _should_include_file (file_path : string)
    (st : outcome stat_result) (flt : Filters) : bool :=
  if extensions_active (extensions flt)
     && negb (bool_decide (lower (path_suffix file_path) ∈ default ∅ (extensions flt)))
  then false
  else
    match st with
    | Raise _ => false
    | Return stat_info =>
        let size := st_size stat_info in
        if (size <? min_size flt)%Z then false
        else if match max_size flt with
                | Some mx => negb (mx =? 0)%Z && (mx <? size)%Z
                | None => false
                end then false
        else
          let mtime := st_mtime stat_info in
          if match min_date flt with
             | Some d => (mtime <? d)%Z
             | None => false
             end then false
          else if match max_date flt with
                  | Some d => (d <? mtime)%Z
                  | None => false
                  end then false
          else true
    end.

(** The local variables of [scan] that the walk updates. *)
Record Acc := {
  files : list FileItem.t;
  folders : list FolderItem.t;
  errors : list string;
  skipped_count : nat;
}.

(** The body of [for file_name in file_names].  The [FilePath] is built
    before the filter is asked and outside the inner [try]: an exception
    of its constructor is caught by neither [except (PermissionError,
    OSError)] clause and ends the scan. *)
Definition scan_file (flt : Filters) (dir_path : string) (acc : Acc)
    (n : node) : outcome Acc :=
  match n with
  | DirNode _ _ _ _ => Return acc
  | FileNode file_name resolved stat_filter stat_item =>
      let file_path := path_join dir_path file_name in
      match file_path_in_scan file_path resolved with
      | Raise e => Raise e
      | Return resolved_path =>
          if negb (_should_include_file file_path stat_filter flt) then
            Return {| files := files acc; folders := folders acc;
                      errors := errors acc;
                      skipped_count := skipped_count acc + 1 |}
          else
            match stat_item with
            | Return stat_info =>
                let file_item :=
                  {| FileItem.path := file_path;
                     FileItem.resolved := resolved_path;
                     FileItem.size := st_size stat_info;
                     FileItem.modified := st_mtime stat_info;
                     FileItem.category := None;
                     FileItem.hash := None |} in
                Return {| files := files acc ++ [file_item];
                          folders := folders acc;
                          errors := errors acc;
                          skipped_count := skipped_count acc |}
            | Raise e =>
                let error_msg :=
                  "Cannot read: " +:+ file_path +:+ " (" +:+ e +:+ ")" in
                Return {| files := files acc; folders := folders acc;
                          errors := errors acc ++ [error_msg];
                          skipped_count := skipped_count acc |}
            end
      end
  end.

Definition is_file (n : node) : bool :=
  match n with FileNode _ _ _ _ => true | DirNode _ _ _ _ => false end.

(** The body of the [for ... in os.walk(...)] loop for the directory
    [dir_path], without the descent: [FilePath(dir_path)], whose
    exception ends the scan, then [stat], whose [OSError] is recorded and
    skips the files of the directory. *)
Definition scan_dir (flt : Filters) (dir_path : string)
    (resolved : resolution) (stat_dir : outcome stat_result)
    (entries : list node) (acc : Acc) : outcome Acc :=
  match file_path_in_scan dir_path resolved with
  | Raise e => Raise e
  | Return _ =>
      match stat_dir with
      | Raise e =>
          let error_msg :=
            "Cannot access directory: " +:+ dir_path +:+ " (" +:+ e +:+ ")" in
          Return {| files := files acc; folders := folders acc;
                    errors := errors acc ++ [error_msg];
                    skipped_count := skipped_count acc |}
      | Return folder_stat =>
          let folder_item :=
            {| FolderItem.path := dir_path;
               FolderItem.name := path_name dir_path;
               FolderItem.created := st_ctime folder_stat;
               FolderItem.modified := st_mtime folder_stat;
               FolderItem.file_count := length (filter is_file entries) |} in
          for_each (scan_file flt dir_path) entries
            {| files := files acc; folders := folders acc ++ [folder_item];
               errors := errors acc; skipped_count := skipped_count acc |}
      end
  end.

(** [os.walk] from [dir_path], top-down, with the loop body run on each
    directory reached; subdirectories named in [exclude_dirs] are pruned
    before the descent. *)
Fixpoint walk (flt : Filters) (exclude_dirs : gset string)
    (dir_path : string) (n : node) (acc : Acc) : outcome Acc :=
  match n with
  | FileNode _ _ _ _ => Return acc
  | DirNode _ resolved stat_dir entries =>
      match scan_dir flt dir_path resolved stat_dir entries acc with
      | Raise e => Raise e
      | Return acc =>
          for_each
            (fun acc d =>
               match d with
               | FileNode _ _ _ _ => Return acc
               | DirNode d_name _ _ _ =>
                   if bool_decide (d_name ∈ exclude_dirs) then Return acc
                   else walk flt exclude_dirs (path_join dir_path d_name) d acc
               end)
            entries acc
      end
  end.

Definition default_exclude_dirs : gset string :=
  {[ ".git"; "__pycache__"; ".venv"; "node_modules" ]}.

(** How the root resolves, in [FilePath(root_path)] and in
    [validate_root_confinement]. *)
Definition root_resolved (root : node) : resolution :=
  match root with
  | FileNode _ resolved _ _ => resolved
  | DirNode _ resolved _ _ => resolved
  end.

(** [scan], run to completion (no call to [cancel], no progress
    callback) on the tree rooted at [root_path].  [exclude_dirs or {...}] replaces [None] and the
    empty set by the default set.  An exception that leaves the walk
    leaves [scan]. *)
Definition scan (root_path : string) (root : node) (flt : Filters)
    (exclude_dirs : option (gset string)) : outcome ScanResult.t :=
  if String.eqb root_path "" then Raise "[INVALID_PATH] Path cannot be empty"
  else
    match file_path_in_scan root_path (root_resolved root) with
    | Raise e => Raise e
    | Return _ =>
        let exclude_dirs :=
          match exclude_dirs with
          | Some X => if bool_decide (X = ∅) then default_exclude_dirs else X
          | None => default_exclude_dirs
          end in
        match walk flt exclude_dirs root_path root
                {| files := []; folders := []; errors := [];
                   skipped_count := 0 |} with
        | Raise e => Raise e
        | Return acc =>
            Return {| ScanResult.files := files acc;
                      ScanResult.folders := folders acc;
                      ScanResult.total_count := length (files acc);
                      ScanResult.errors := errors acc |}
        end
    end.

(** The set [scan] passes on as [exclude_dirs]: [exclude_dirs or {...}]. *)
Definition effective_exclude_dirs (exclude_dirs : option (gset string))
    : gset string :=
  match exclude_dirs with
  | Some X => if bool_decide (X = ∅) then default_exclude_dirs else X
  | None => default_exclude_dirs
  end.

(** A tree that does not change while it is scanned: the two [stat]
    calls on a file have the same outcome. *)
Fixpoint static (n : node) : Prop :=
  match n with
  | FileNode _ _ stat_filter stat_item => stat_filter = stat_item
  | DirNode _ _ _ entries =>
      (fix all (es : list node) : Prop :=
         match es with
         | [] => True
         | e :: es => static e ∧ all es
         end) entries
  end.

(** The tree without the directories named in [X], at any depth below
    the root. *)
Fixpoint prune (X : gset string) (n : node) : node :=
  match n with
  | FileNode _ _ _ _ => n
  | DirNode name resolved stat_dir entries =>
      DirNode name resolved stat_dir
        ((fix go (es : list node) : list node :=
            match es with
            | [] => []
            | e :: es =>
                match e with
                | FileNode _ _ _ _ => e :: go es
                | DirNode d _ _ _ =>
                    if bool_decide (d ∈ X) then go es else prune X e :: go es
                end
            end) entries)
  end.

Fixpoint prune_entries (X : gset string) (es : list node) : list node :=
  match es with
  | [] => []
  | e :: es =>
      match e with
      | FileNode _ _ _ _ => e :: prune_entries X es
      | DirNode d _ _ _ =>
          if bool_decide (d ∈ X) then prune_entries X es
          else prune X e :: prune_entries X es
      end
  end.



End ScanningService.

(** ** [src/fileorganizer_pro/services/categorization_service.py] *)
Module CategorizationService.

(** A rule set: a [dict] from category name to extension list, in
    insertion order. *)
Definition mappings := list (string * list string).

Definition DEFAULT_CATEGORY_MAPPINGS : mappings :=
  [ ("Documents", [".pdf"; ".doc"; ".docx"; ".txt"; ".xlsx"; ".xls"; ".ppt"; ".pptx"]);
    ("Images", [".jpg"; ".jpeg"; ".png"; ".gif"; ".bmp"; ".svg"; ".ico"; ".webp"]);
    ("Videos", [".mp4"; ".avi"; ".mkv"; ".mov"; ".flv"; ".wmv"; ".m4v"; ".webm"]);
    ("Audio", [".mp3"; ".wav"; ".flac"; ".aac"; ".ogg"; ".wma"; ".m4a"; ".aiff"]);
    ("Code", [".py"; ".js"; ".ts"; ".java"; ".cpp"; ".c"; ".h"; ".go"; ".rs"; ".rb"]);
    ("Archives", [".zip"; ".rar"; ".7z"; ".tar"; ".gz"; ".bz2"; ".iso"]);
    ("Executables", [".exe"; ".msi"; ".bat"; ".sh"; ".app"; ".dmg"; ".apk"]);
    ("Spreadsheets", [".csv"; ".tsv"]);
    ("Presentations", []);
    ("Source", [".sql"; ".xml"; ".html"; ".css"; ".json"; ".yaml"; ".yml"]);
    ("Other", []) ].

Record t := {
  category_mappings : mappings;
  default_category : string;
  _extension_map : gmap string string;
}.

(** The two nested [for] loops of [_build_extension_map], started from
    the index [m]. *)
Definition build_into (cm : mappings) (m : gmap string string)
    : gmap string string :=
  fold_left
    (fun m '(category, extensions) =>
       fold_left (fun m ext => <[lower ext := category]> m) extensions m)
    cm m.

Definition _build_extension_map (s : t) : t :=
  {| category_mappings := category_mappings s;
     default_category := default_category s;
     _extension_map := build_into (category_mappings s) (_extension_map s) |}.

(** The rule set [__init__] starts from,
    [category_mappings or DEFAULT_CATEGORY_MAPPINGS].  The right-hand
    side is the module-level dictionary itself, not a copy: a service
    built without a rule set shares it, and [add_rule] and [remove_rule]
    on such a service change it in place for every service built later.
    [defaults] is the content of that dictionary at the time of the
    call. *)
Definition effective_mappings_in (defaults : mappings)
    (category_mappings : option mappings) : mappings :=
  match category_mappings with
  | None | Some [] => defaults
  | Some cm => cm
  end.

(** [__init__], called while the module-level dictionary holds
    [defaults]. *)
Definition init_in (defaults : mappings) (category_mappings : option mappings)
    (default_category : string) : t :=
  _build_extension_map
    {| category_mappings := effective_mappings_in defaults category_mappings;
       default_category := default_category;
       _extension_map := ∅ |}.

(** [__init__] in a process in which no service has changed the
    module-level dictionary yet: it still holds the table of the source
    text. *)
Definition init (category_mappings : option mappings)
    (default_category : string) : t :=
  init_in DEFAULT_CATEGORY_MAPPINGS category_mappings default_category.

(** [categorize]; an exception raised in the body is re-raised as
    [CategoryNotFoundError]. *)
Definition categorize (s : t) (file_item : FileItem.t) : outcome Category.t :=
  let extension := lower (path_suffix (FileItem.path file_item)) in
  match _extension_map s !! extension with
  | Some category_name => Category.new category_name
  | None => Category.new (default_category s)
  end.

(** [load_from_config]; [config] is the outcome of opening the file and
    parsing it with [json.load]. *)
Definition load_from_config (config : outcome mappings) (s : t) : outcome unit * t :=
  match config with
  | Raise e => (Raise e, s)
  | Return config =>
      (Return (),
       _build_extension_map
         {| category_mappings := config;
            default_category := default_category s;
            _extension_map := _extension_map s |})
  end.

(** The normal form of an extension in [add_rule] and [remove_rule]:
    [ext.lower() if ext.startswith('.') else f'.{ext.lower()}']. *)
Definition normalize (ext : string) : string :=
  if String.prefix "." ext then lower ext else "." +:+ lower ext.

(** Dictionary operations on a rule set. *)
Definition has_category (category : string) (cm : mappings) : bool :=
  bool_decide (category ∈ cm.*1).

(** [cm[category].extend(exts)], after [cm[category] = []] for a new
    key. *)
Fixpoint extend_category (category : string) (exts : list string)
    (cm : mappings) : mappings :=
  match cm with
  | [] => [(category, exts)]
  | (c, l) :: cm =>
      if String.eqb c category then (c, l ++ exts) :: cm
      else (c, l) :: extend_category category exts cm
  end.

(** [del cm[category]]. *)
Definition delete_category (category : string) (cm : mappings) : mappings :=
  filter (λ kv, kv.1 ≠ category) cm.

(** [l.remove(x)] for an [x] that may be absent: the first occurrence
    goes. *)
Fixpoint remove_first (x : string) (l : list string) : list string :=
  match l with
  | [] => []
  | y :: l => if String.eqb x y then l else y :: remove_first x l
  end.

(** [if ext in cm[category]: cm[category].remove(ext)]. *)
Fixpoint remove_extension (category ext : string) (cm : mappings) : mappings :=
  match cm with
  | [] => []
  | (c, l) :: cm =>
      if String.eqb c category then (c, remove_first ext l) :: cm
      else (c, l) :: remove_extension category ext cm
  end.

Definition add_rule (category : string) (extensions : list string) (s : t) : t :=
  let normalized := normalize <$> extensions in
  {| category_mappings := extend_category category normalized (category_mappings s);
     default_category := default_category s;
     _extension_map :=
       fold_left (fun m ext => <[ext := category]> m) normalized (_extension_map s) |}.

Definition remove_rule (category : string) (extensions : option (list string))
    (s : t) : t :=
  if negb (has_category category (category_mappings s)) then s
  else
    match extensions with
    | None =>
        {| category_mappings := delete_category category (category_mappings s);
           default_category := default_category s;
           _extension_map := filter (λ kv, kv.2 ≠ category) (_extension_map s) |}
    | Some extensions =>
        let normalized := normalize <$> extensions in
        {| category_mappings :=
             fold_left (fun cm ext => remove_extension category ext cm)
                       normalized (category_mappings s);
           default_category := default_category s;
           _extension_map :=
             fold_left (fun m ext => delete ext m) normalized (_extension_map s) |}
    end.

Definition get_categories (s : t) : list string := (category_mappings s).*1.

(** [save_to_config]: what is written to the file. *)
Definition save_to_config (s : t) : mappings := category_mappings s.

(** The loop of [categorize_batch]; a file whose categorization raises
    gets [Category(self.default_category)], and an exception of that
    constructor leaves the loop. *)
Fixpoint categorize_batch_from (s : t) (files : list FileItem.t)
    (results : gmap string Category.t) : outcome (gmap string Category.t) :=
  match files with
  | [] => Return results
  | file_item :: files =>
      match categorize s file_item with
      | Return c =>
          categorize_batch_from s files (<[FileItem.path file_item := c]> results)
      | Raise _ =>
          match Category.new (default_category s) with
          | Return c =>
              categorize_batch_from s files (<[FileItem.path file_item := c]> results)
          | Raise e => Raise e
          end
      end
  end.

Definition categorize_batch (s : t) (files : list FileItem.t)
    : outcome (gmap string Category.t) :=
  categorize_batch_from s files ∅.

(** The category of the last rule of [cm], in dictionary order, that
    lists an extension whose lower-case form is [e]. *)
Fixpoint last_category (cm : mappings) (e : string) : option string :=
  match cm with
  | [] => None
  | (category, extensions) :: cm =>
      match last_category cm e with
      | Some c => Some c
      | None => if bool_decide (e ∈ lower <$> extensions) then Some category else None
      end
  end.

(** A service whose index is the one its rule set builds from
    scratch. *)
Definition consistent (s : t) : Prop :=
  _extension_map s = build_into (category_mappings s) ∅.

End CategorizationService.

(** ** [src/fileorganizer_pro/services/duplicate_service.py] *)
Module DuplicateService.

Definition HASH_ALGORITHMS : list string := ["md5"; "sha256"; "sha512"].

Section WithReader.
(** [hexdigest algorithm path]: the hex digest [hashlib] computes over
    the bytes of the file at [path], or the error raised while
    reading it. *)
Variable hexdigest : string → string → outcome string.

(** [FileReader.compute_hash]. *)
Definition compute_hash (path algorithm : string) : outcome FileHash.t :=
  if negb (bool_decide (algorithm ∈ HASH_ALGORITHMS))
  then Raise ("Unsupported hash algorithm: " +:+ algorithm)
  else
    match hexdigest algorithm path with
    | Raise e => Raise e
    | Return d => FileHash.new d algorithm
    end.

Record t := { hash_algorithm : string }.

Definition init (hash_algorithm : string) : outcome t :=
  if negb (bool_decide (hash_algorithm ∈ ["md5"; "sha256"]))
  then Raise ("Unsupported hash algorithm: " +:+ hash_algorithm)
  else Return {| hash_algorithm := hash_algorithm |}.

Definition _compute_file_hash (s : t) (file_item : FileItem.t)
    : outcome FileHash.t :=
  compute_hash (FileItem.path file_item) (hash_algorithm s).

(** [hash_map[k].append(f)] on a [defaultdict(list)]: a new key goes
    to the end of the dictionary's order. *)
Fixpoint hash_map_append (k : string) (f : FileItem.t)
    (hash_map : list (string * list FileItem.t))
    : list (string * list FileItem.t) :=
  match hash_map with
  | [] => [(k, [f])]
  | (k', file_list) :: hash_map =>
      if String.eqb k k' then (k', file_list ++ [f]) :: hash_map
      else (k', file_list) :: hash_map_append k f hash_map
  end.

(** The body of the hashing loop; the second component collects
    [errors]. *)
Definition hash_step (s : t)
    (st : list (string * list FileItem.t) * list string)
    (file_item : FileItem.t) : list (string * list FileItem.t) * list string :=
  match _compute_file_hash s file_item with
  | Return file_hash =>
      (hash_map_append (FileHash.digest file_hash) file_item st.1, st.2)
  | Raise e =>
      (st.1, st.2 ++ ["Cannot hash " +:+ FileItem.name file_item +:+ ": " +:+ e])
  end.

(** The grouping loop over [hash_map.items()]. *)
Fixpoint group_duplicates (s : t) (items : list (string * list FileItem.t))
    (duplicate_groups : list DuplicateGroup.t)
    : outcome (list DuplicateGroup.t) :=
  match items with
  | [] => Return duplicate_groups
  | (hash_digest, file_list) :: items =>
      if 2 <=? length file_list then
        match FileHash.new hash_digest (hash_algorithm s) with
        | Raise e => Raise e
        | Return file_hash =>
            match DuplicateGroup.new file_hash file_list (head file_list) with
            | Raise e => Raise e
            | Return group =>
                group_duplicates s items (duplicate_groups ++ [group])
            end
        end
      else group_duplicates s items duplicate_groups
  end.

(** [detect_duplicates] without a progress callback; an exception
    escaping the body is re-raised as [DuplicateDetectionError]. *)
Definition detect_duplicates (s : t) (files : list FileItem.t)
    : outcome (list DuplicateGroup.t) :=
  let '(hash_map, errors) := fold_left (hash_step s) files ([], []) in
  match group_duplicates s hash_map [] with
  | Return duplicate_groups => Return duplicate_groups
  | Raise e => Raise ("Duplicate detection failed: " +:+ e)
  end.

(** The digest under which [detect_duplicates] files [file_item], if
    hashing it succeeds. *)
Definition digest_of (s : t) (file_item : FileItem.t) : option string :=
  match _compute_file_hash s file_item with
  | Return file_hash => Some (FileHash.digest file_hash)
  | Raise _ => None
  end.

Definition same_digest (s : t) (d : string) (file_item : FileItem.t) : Prop :=
  digest_of s file_item = Some d.

#[export] Instance same_digest_dec s d file_item :
  Decision (same_digest s d file_item) :=
  decide (digest_of s file_item = Some d).

(** The state of the hashing loop once the files [seen] are
    processed: the dictionary has one entry per digest met, holding
    the files with that digest in the order they came, and every key
    is a digest that passes the [FileHash] validation. *)
Definition hashed (s : t) (seen : list FileItem.t)
    (hm : list (string * list FileItem.t)) : Prop :=
  NoDup hm.*1 ∧
  (∀ d fl, (d, fl) ∈ hm → fl = filter (same_digest s d) seen) ∧
  (∀ d f, f ∈ seen → digest_of s f = Some d → d ∈ hm.*1) ∧
  (∀ d, d ∈ hm.*1 →
     FileHash.new d (hash_algorithm s)
     = Return {| FileHash.digest := d;
                 FileHash.algorithm := hash_algorithm s |}).

(** The test of [filter_by_size]: only the first file of a group is
    looked at. *)
Definition size_in_range (min_size : Z) (max_size : option Z)
    (group : DuplicateGroup.t) : bool :=
  match DuplicateGroup.files group with
  | [] => false
  | first :: _ =>
      (min_size <=? FileItem.size first)%Z
      && match max_size with
         | None => true
         | Some mx => (FileItem.size first <=? mx)%Z
         end
  end.

Definition filter_by_size (duplicate_groups : list DuplicateGroup.t)
    (min_size : Z) (max_size : option Z) : list DuplicateGroup.t :=
  filter (λ group, size_in_range min_size max_size group = true) duplicate_groups.

(** The test of [filter_by_extension]: any file of the group has one of
    the extensions, both sides compared in lower case. *)
Definition has_extension (extensions : list string) (group : DuplicateGroup.t)
    : bool :=
  existsb (λ file_item,
             bool_decide (lower (FileItem.extension file_item)
                          ∈ lower <$> extensions))
          (DuplicateGroup.files group).

Definition filter_by_extension (duplicate_groups : list DuplicateGroup.t)
    (extensions : list string) : list DuplicateGroup.t :=
  filter (λ group, has_extension extensions group = true) duplicate_groups.

End WithReader.
End DuplicateService.

(** ** Moving files: [src/file_organizer_pro.py] and
    [infrastructure/filesystem/file_reader_writer.py] *)

(** [FileOrganizerPro.move_or_copy_file]; [operation_mode] is the value of
    [self.operation_mode.get()]. *)
Module FileOrganizerPro.
Section WithFileSystem.
Context {FS : Type} `{FileSystem FS}.

Definition move_or_copy_file (operation_mode source destination : string)
    (fs : FS) : outcome unit * FS :=
  match (if String.eqb operation_mode "move"
         then shutil_move source destination fs
         else shutil_copy2 source destination fs) with
  | (Return u, fs) => (Return u, fs)
  | (Raise e, fs) =>
      (Raise ("Failed to " +:+ operation_mode +:+ " file: " +:+ e), fs)
  end.
End WithFileSystem.

(** [PurePath(p).stem]: the final component without its suffix. *)
Definition path_stem (p : string) : string :=
  let name := path_name p in
  substring 0 (String.length name - String.length (path_suffix p)) name.

(** [PurePath(p).parent / name] for a path [p] in normal form: the final
    component of [p] replaced by [name]. *)
Definition with_name (p name : string) : string :=
  substring 0 (String.length p - String.length (path_name p)) p +:+ name.

(** [path.parent / f"{path.stem}_{counter}{path.suffix}"]. *)
Definition numbered (path : string) (counter : nat) : string :=
  with_name path (path_stem path +:+ "_" +:+ pretty counter +:+ path_suffix path).

Section UniqueFilename.
Context {FS : Type} `{FileSystem FS}.

(** The [while True] loop of [get_unique_filename], run for at most
    [fuel] iterations. *)
Fixpoint unique_from (fuel : nat) (path : string) (counter : nat) (fs : FS)
    : option string :=
  match fuel with
  | 0 => None
  | S fuel =>
      let new_path := numbered path counter in
      if negb (path_exists new_path fs) then Some new_path
      else unique_from fuel path (counter + 1) fs
  end.

Definition get_unique_filename (fuel : nat) (path : string) (fs : FS)
    : option string :=
  if negb (path_exists path fs) then Some path
  else unique_from fuel path 1 fs.

End UniqueFilename.
End FileOrganizerPro.

(** [class FileOperations]. An [OSError] becomes an
    [OperationFailedError], whose text is [failed]: the error code and a
    message that names the operation and the two paths, with an arrow
    (U+2192, three bytes in UTF-8) between them. *)
Module FileOperations.
Section WithFileSystem.
Context {FS : Type} `{FileSystem FS}.

Definition failed (operation source destination : string) : string :=
  "[OPERATION_FAILED] Failed to " +:+ operation +:+ " '" +:+ source
  +:+ "' → '" +:+ destination +:+ "'".

Definition move (source destination : string) (fs : FS) : outcome unit * FS :=
  if negb (path_exists source fs)
  then (Raise ("[FILE_NOT_FOUND] File not found: " +:+ source), fs)
  else
    match parent_mkdir destination fs with
    | (Raise _, fs) => (Raise (failed "move" source destination), fs)
    | (Return _, fs) =>
        match shutil_move source destination fs with
        | (Raise _, fs) => (Raise (failed "move" source destination), fs)
        | (Return u, fs) => (Return u, fs)
        end
    end.

Definition copy (source destination : string) (fs : FS) : outcome unit * FS :=
  if negb (path_exists source fs)
  then (Raise ("[FILE_NOT_FOUND] File not found: " +:+ source), fs)
  else
    match parent_mkdir destination fs with
    | (Raise _, fs) => (Raise (failed "copy" source destination), fs)
    | (Return _, fs) =>
        match shutil_copy2 source destination fs with
        | (Raise _, fs) => (Raise (failed "copy" source destination), fs)
        | (Return u, fs) => (Return u, fs)
        end
    end.
End WithFileSystem.
End FileOperations.

(** A file system with volumes and a full disk, after the Python
    standard library: [shutil.move] renames within a volume and otherwise
    copies the file and then unlinks the source; [shutil.copy2] writes the
    destination from its first byte on and raises when the disk fills up,
    leaving what it wrote. [free] is the number of bytes that can still be
    written.  This is one instance of the interface, used for concrete
    runs; the messages are the texts of the [OSError]s as CPython puts
    them on Linux. *)
Module Disk.

Definition no_such_file (p : string) : string :=
  "[Errno 2] No such file or directory: '" +:+ p +:+ "'".

Definition no_space (src dst : string) : string :=
  "[Errno 28] No space left on device: '" +:+ src +:+ "' -> '" +:+ dst +:+ "'".

Definition cross_device (src dst : string) : string :=
  "[Errno 18] Invalid cross-device link: '" +:+ src +:+ "' -> '" +:+ dst +:+ "'".

Record t := mk {
  contents : gmap string string;
  volume : string → nat;
  free : nat;
}.

Definition exists_ (p : string) (fs : t) : bool :=
  bool_decide (is_Some (contents fs !! p)).

Definition mkdir (p : string) (fs : t) : outcome unit * t := (Return (), fs).

Definition copy2 (src dst : string) (fs : t) : outcome unit * t :=
  match contents fs !! src with
  | None => (Raise (no_such_file src), fs)
  | Some c =>
      if String.length c <=? free fs then
        (Return (),
         mk (<[dst := c]> (contents fs)) (volume fs) (free fs - String.length c))
      else
        (Raise (no_space src dst),
         mk (<[dst := substring 0 (free fs) c]> (contents fs)) (volume fs) 0)
  end.

Definition unlink (p : string) (fs : t) : outcome unit * t :=
  match contents fs !! p with
  | None => (Raise (no_such_file p), fs)
  | Some _ => (Return (), mk (delete p (contents fs)) (volume fs) (free fs))
  end.

(** [os.rename]. *)
Definition rename (src dst : string) (fs : t) : outcome unit * t :=
  if negb (volume fs src =? volume fs dst)
  then (Raise (cross_device src dst), fs)
  else
    match contents fs !! src with
    | None => (Raise (no_such_file src), fs)
    | Some c =>
        (Return (), mk (<[dst := c]> (delete src (contents fs))) (volume fs) (free fs))
    end.

Definition move (src dst : string) (fs : t) : outcome unit * t :=
  match rename src dst fs with
  | (Return u, fs) => (Return u, fs)
  | (Raise _, fs) =>
      match copy2 src dst fs with
      | (Raise e, fs) => (Raise e, fs)
      | (Return _, fs) => unlink src fs
      end
  end.

End Disk.

#[export] Instance disk_fs : FileSystem Disk.t := {
  path_exists := Disk.exists_;
  parent_mkdir := Disk.mkdir;
  shutil_move := Disk.move;
  shutil_copy2 := Disk.copy2;
  path_unlink := Disk.unlink;
}.

(** ** Example inputs *)
Module Examples.
Import UndoManager.

Definition mv (src dst : string) (now : Z) : UndoOperation :=
  {| operation_type := "move"; source := src; destination := dst;
     metadata := ∅; timestamp := now |}.

Definition second : Z := 1000000.

(** Scenario 3: a move of [/src/f.txt] to [/dst/f.txt] was recorded and
    the destination has been deleted since. *)
Definition scenario3_log : UndoManager.t :=
  record_operation "move" "/src/f.txt" "/dst/f.txt" ∅ 0 (init 1000).
Definition scenario3_fs : SimpleFS.t := SimpleFS.of_list [].

(** The same move, with the destination present but the source path
    write-protected: the reversal raises. *)
Definition protected_fs : SimpleFS.t :=
  SimpleFS.mk {[ "/dst/f.txt" := "data" ]} {[ "/src/f.txt" ]}.

(** Two jobs run one second apart: the first moves [x.txt], the second
    moves [a.txt], [b.txt] and [c.txt]. *)
Definition two_jobs_log : UndoManager.t :=
  end_job true
    (record_operation "move" "/in/c.txt" "/out/c.txt" ∅ (4 * second)
    (record_operation "move" "/in/b.txt" "/out/b.txt" ∅ (3 * second)
    (record_operation "move" "/in/a.txt" "/out/a.txt" ∅ (2 * second)
    (start_job "job2"
    (end_job true
    (record_operation "move" "/in/x.txt" "/out/x.txt" ∅ (1 * second)
    (start_job "job1" (init 1000)))))))).
Definition two_jobs_fs : SimpleFS.t :=
  SimpleFS.of_list [("/out/x.txt", "x"); ("/out/a.txt", "a");
                    ("/out/b.txt", "b"); ("/out/c.txt", "c")].

(** One job whose three moves take ninety seconds. *)
Definition slow_job_log : UndoManager.t :=
  end_job true
    (record_operation "move" "/in/c.txt" "/out/c.txt" ∅ (90 * second)
    (record_operation "move" "/in/b.txt" "/out/b.txt" ∅ (45 * second)
    (record_operation "move" "/in/a.txt" "/out/a.txt" ∅ (0 * second)
    (start_job "job1" (init 1000))))).
Definition slow_job_fs : SimpleFS.t :=
  SimpleFS.of_list [("/out/a.txt", "a"); ("/out/b.txt", "b"); ("/out/c.txt", "c")].

(** Scanner inputs. *)
Definition ok_stat (size : Z) : outcome ScanningService.stat_result :=
  Return {| ScanningService.st_size := size;
            ScanningService.st_mtime := 1700000000;
            ScanningService.st_ctime := 1700000000 |}.

(** A directory and a regular file reached through no symbolic link:
    [at_] is the path of the entry, which resolves to itself. *)
Definition plain_dir (at_ name : string) (st : outcome ScanningService.stat_result)
    (entries : list ScanningService.node) : ScanningService.node :=
  ScanningService.DirNode name (ScanningService.Resolved at_) st entries.

Definition plain_file (at_ name : string) (size : Z) : ScanningService.node :=
  ScanningService.FileNode name (ScanningService.Resolved at_)
    (ok_stat size) (ok_stat size).

Definition only_extensions (E : option (gset string)) : ScanningService.Filters :=
  {| ScanningService.extensions := E;
     ScanningService.min_size := 0;
     ScanningService.max_size := None;
     ScanningService.min_date := None;
     ScanningService.max_date := None |}.

(** Scenario 1: one [.pdf] of 500 bytes and one [.jpg] of 200 bytes. *)
Definition scenario1_tree : ScanningService.node :=
  plain_dir "/inbox" "inbox" (ok_stat 4096)
    [ plain_file "/inbox/report.pdf" "report.pdf" 500;
      plain_file "/inbox/photo.jpg" "photo.jpg" 200 ].

(** A file whose extension is in upper case. *)
Definition upper_tree : ScanningService.node :=
  plain_dir "/inbox" "inbox" (ok_stat 4096)
    [ plain_file "/inbox/REPORT.PDF" "REPORT.PDF" 500 ].

(** [report.pdf] is a symbolic link to [/store/blob.bin]. *)
Definition link_tree : ScanningService.node :=
  plain_dir "/inbox" "inbox" (ok_stat 4096)
    [ ScanningService.FileNode "report.pdf"
        (ScanningService.Resolved "/store/blob.bin")
        (ok_stat 500) (ok_stat 500) ].

(** [loop] is a symbolic link that points to itself, under a Python
    version before 3.13: [resolve] raises a [RuntimeError], and [stat]
    would raise an [OSError]. *)
Definition loop_tree : ScanningService.node :=
  plain_dir "/inbox" "inbox" (ok_stat 4096)
    [ plain_file "/inbox/notes.txt" "notes.txt" 10;
      ScanningService.FileNode "loop" ScanningService.ResolveRuntimeError
        (Raise "[Errno 40] Too many levels of symbolic links: '/inbox/loop'")
        (Raise "[Errno 40] Too many levels of symbolic links: '/inbox/loop'") ].

(** A directory holding a readable file and one on which [stat] is
    denied. *)
Definition denied_tree : ScanningService.node :=
  plain_dir "/inbox" "inbox" (ok_stat 4096)
    [ ScanningService.FileNode "secret.txt"
        (ScanningService.Resolved "/inbox/secret.txt")
        (Raise "[Errno 13] Permission denied") (Raise "[Errno 13] Permission denied");
      plain_file "/inbox/notes.txt" "notes.txt" 10 ].

(** A file that vanishes between the two [stat] calls. *)
Definition vanishing_tree : ScanningService.node :=
  plain_dir "/inbox" "inbox" (ok_stat 4096)
    [ ScanningService.FileNode "tmp.txt"
        (ScanningService.Resolved "/inbox/tmp.txt")
        (ok_stat 10) (Raise "[Errno 2] No such file or directory") ].

(** A file item whose path resolves to itself. *)
Definition file_at_size (path : string) (size : Z) : FileItem.t :=
  {| FileItem.path := path; FileItem.resolved := path; FileItem.size := size;
     FileItem.modified := 1700000000; FileItem.category := None;
     FileItem.hash := None |}.

(** What the scan of Scenario 1 returns under the filter [{.pdf}]. *)
Definition scenario1_pdf_result : ScanResult.t :=
  {| ScanResult.files := [ file_at_size "/inbox/report.pdf" 500 ];
     ScanResult.folders :=
       [ {| FolderItem.path := "/inbox"; FolderItem.name := "inbox";
            FolderItem.created := 1700000000; FolderItem.modified := 1700000000;
            FolderItem.file_count := 2 |} ];
     ScanResult.total_count := 1;
     ScanResult.errors := [] |}.

(** Categorizer inputs: the mapping of the repository's own
    [test_load_from_config], and a photo. *)
Definition custom_config : CategorizationService.mappings :=
  [ ("Custom1", [".c1"]); ("Custom2", [".c2"; ".c3"]) ].

Definition file_at (path : string) : FileItem.t := file_at_size path 100.

Definition photo : FileItem.t := file_at "/pictures/photo.jpg".

(** Scenario 2: [a.txt] and [b.txt] hold the same bytes, [c.txt] holds
    others and [d.txt] cannot be read; the reader hashes by path. *)
Definition scenario2_hexdigest (algorithm path : string) : outcome string :=
  if String.eqb path "/data/a.txt" || String.eqb path "/data/b.txt"
  then Return "5d41402abc4b2a76b9719d911017c592"
  else if String.eqb path "/data/c.txt"
  then Return "7d793037a0760186574b0282f2f435e7"
  else Raise "[Errno 13] Permission denied".

Definition scenario2_files : list FileItem.t :=
  [ file_at "/data/a.txt"; file_at "/data/c.txt";
    file_at "/data/d.txt"; file_at "/data/b.txt" ].

(** A ten-byte file on the home volume, and a USB volume mounted under
    [/mnt/usb] on which four bytes can still be written. *)
Definition usb_volume (p : string) : nat :=
  if String.prefix "/mnt/usb/" p then 1 else 0.

Definition usb_fs : Disk.t :=
  Disk.mk {[ "/home/u/notes.txt" := "0123456789" ]} usb_volume 4.


(** A log holding one recorded move whose destination exists, and the
    file system around it. *)
Definition moved_log : UndoManager.t :=
  record_operation "move" "/in/a.txt" "/out/a.txt" ∅ 0 (init 1000).
Definition moved_fs : SimpleFS.t := SimpleFS.of_list [("/out/a.txt", "a")].
Definition restored_fs : SimpleFS.t := SimpleFS.of_list [("/in/a.txt", "a")].

(** A log whose redo stack holds an undone delete. *)
Definition undone_delete_log : UndoManager.t :=
  set_stacks []
    [ {| operation_type := "delete"; source := "/in/a.txt";
         destination := "/in/a.txt"; metadata := {[ "backup_path" := "/bak/a.txt" ]};
         timestamp := 0 |} ]
    (init 1000).

(** A project directory with a [.git] directory and a nested
    [node_modules] inside. *)
Definition project_tree : ScanningService.node :=
  plain_dir "/project" "project" (ok_stat 4096)
    [ plain_file "/project/main.py" "main.py" 120;
      plain_dir "/project/.git" ".git" (ok_stat 4096)
        [ plain_file "/project/.git/HEAD" "HEAD" 23 ];
      plain_dir "/project/web" "web" (ok_stat 4096)
        [ plain_file "/project/web/app.js" "app.js" 300;
          plain_dir "/project/web/node_modules" "node_modules" (ok_stat 4096)
            [ plain_file "/project/web/node_modules/left-pad.js" "left-pad.js" 11 ] ] ].

Definition size_between (lo : Z) (hi : option Z) : ScanningService.Filters :=
  {| ScanningService.extensions := None;
     ScanningService.min_size := lo;
     ScanningService.max_size := hi;
     ScanningService.min_date := None;
     ScanningService.max_date := None |}.

(** What the scan of [project_tree] returns for sizes from 100 to 200. *)
Definition project_result : ScanResult.t :=
  {| ScanResult.files :=
       [ {| FileItem.path := "/project/main.py";
            FileItem.resolved := "/project/main.py"; FileItem.size := 120;
            FileItem.modified := 1700000000; FileItem.category := None;
            FileItem.hash := None |} ];
     ScanResult.folders :=
       [ {| FolderItem.path := "/project"; FolderItem.name := "project";
            FolderItem.created := 1700000000; FolderItem.modified := 1700000000;
            FolderItem.file_count := 1 |};
         {| FolderItem.path := "/project/web"; FolderItem.name := "web";
            FolderItem.created := 1700000000; FolderItem.modified := 1700000000;
            FolderItem.file_count := 1 |} ];
     ScanResult.total_count := 1;
     ScanResult.errors := [] |}.



(** A file with an upper-case extension. *)
Definition scan_pdf : FileItem.t := file_at "/docs/SCAN.PDF".

(** An output folder in which [a.txt] and [a_1.txt] are taken. *)
Definition crowded_fs : SimpleFS.t :=
  SimpleFS.of_list [("/out/a.txt", "x"); ("/out/a_1.txt", "y")].

(** The default service, and a file with an extension of the custom
    mapping. *)
Definition default_service : CategorizationService.t :=
  CategorizationService.init None "Other".

(** The module-level default table after [add_rule('Scans', ['PDF'])] on
    the default service, which changes the table in place. *)
Definition shared_defaults : CategorizationService.mappings :=
  CategorizationService.category_mappings
    (CategorizationService.add_rule "Scans" ["PDF"] default_service).
Definition c2_file : FileItem.t := file_at "/work/data.C2".
End Examples.

(** * Properties *)

(** ** Bounded deques *)
Section DequeFacts.
Context {A : Type}.

Lemma deque_append_length maxlen (d : list A) x :
  length (deque_append maxlen d x) ≤ maxlen.
Proof. unfold deque_append. rewrite length_take. lia. Qed.

Lemma deque_append_room maxlen (d : list A) x :
  length d < maxlen → deque_append maxlen d x = x :: d.
Proof. intros Hlt. unfold deque_append. apply take_ge. simpl. lia. Qed.

(** Appending what was just popped gives the deque back. *)
Lemma deque_pop_append maxlen (d d' : list A) x :
  length d ≤ maxlen → deque_pop d = Some (x, d') →
  deque_append maxlen d' x = d.
Proof.
  intros Hle Hpop. destruct d as [|y d0]; simplify_eq/=.
  apply deque_append_room. lia.
Qed.
End DequeFacts.

(** ** The transaction log *)
Section UndoManagerProperties.
Import UndoManager.
Context {FS : Type} `{FileSystem FS}.

Lemma set_stacks_same m : set_stacks (undo_stack m) (redo_stack m) m = m.
Proof. by destruct m. Qed.

Lemma record_operation_bounded ty src dst md now m :
  bounded (record_operation ty src dst md now m).
Proof.
  split; simpl; [apply deque_append_length | lia].
Qed.

(** What [undo_last_job] takes for the last job is decided by the
    timestamps alone: the longest run of entries, from the top of the undo
    stack down, that lie within sixty seconds of the top entry. Neither
    [current_job_id] nor [current_job_operations] is consulted. *)
Lemma collect_job_split maxlen last (undo job rest : list UndoOperation) :
  length undo ≤ maxlen →
  collect_job maxlen last undo = (job, rest) →
  undo = job ++ rest ∧
  Forall (λ op, same_job last op = true) job ∧
  (∀ op, head rest = Some op → same_job last op = false).
Proof.
  revert job rest. induction undo as [|op undo IH]; intros job rest Hlen Hrun.
  - simplify_eq/=. by repeat split.
  - cbn [collect_job] in Hrun. destruct (same_job last op) eqn:Hop.
    + destruct (collect_job maxlen last undo) as [job' rest'] eqn:Hrec.
      simplify_eq. destruct (IH job' rest) as (-> & Hall & Hrest);
        [simpl in Hlen; lia | done |].
      repeat split; [by constructor | done].
    + simplify_eq. rewrite deque_append_room by (simpl in Hlen; lia).
      repeat split; [constructor|]. intros op' [= <-]. done.
Qed.

(** C5. [record_operation] always leaves the redo stack empty, whatever
    the log held before (in particular after any number of undos), and
    [redo_last_operation] then does nothing and returns [False]. *)
Theorem record_operation_clears_redo ty src dst md now (m : UndoManager.t) :
  let m' := record_operation ty src dst md now m in
  redo_stack m' = [] ∧
  ∀ fs : FS, redo_last_operation m' fs = (false, m', fs).
Proof.
  split; [reflexivity|]. intros fs. reflexivity.
Qed.

Lemma undo_last_operation_failure (m : UndoManager.t) (fs fs' : FS)
    op rest (r : outcome bool) :
  bounded m →
  undo_stack m = op :: rest →
  _reverse_operation op fs = (r, fs') →
  r ≠ Return true →
  undo_last_operation m fs = (reported r, m, fs').
Proof.
  intros [Hu _] Hstack Hrev Hfail.
  assert (Hback : deque_append (max_history m) rest op = undo_stack m).
  { apply deque_pop_append; [done | by rewrite Hstack]. }
  unfold undo_last_operation. rewrite Hstack. cbn [deque_pop]. rewrite Hrev.
  destruct r as [[|]|e]; [done | |]; cbn [reported];
    rewrite Hback, set_stacks_same; reflexivity.
Qed.

Lemma reverse_move_destination_missing (fs : FS) src dst md now :
  path_exists dst fs = false →
  _reverse_operation
    {| operation_type := "move"; source := src; destination := dst;
       metadata := md; timestamp := now |} fs = (Return false, fs).
Proof. intros Hgone. unfold _reverse_operation. simpl. by rewrite Hgone. Qed.

(** C3. When reversing the popped operation fails, by returning [False]
    or by raising, [undo_last_operation] leaves the log as it was (the
    entry is back on top of the undo stack, the redo stack is untouched)
    and reports the failure: it returns [False], or raises "Undo
    failed: ..." when the reversal raised. *)
Theorem undo_last_operation_failure_restores (m : UndoManager.t) (fs fs' : FS)
    op rest (r : outcome bool) :
  bounded m →
  undo_stack m = op :: rest →
  _reverse_operation op fs = (r, fs') →
  r ≠ Return true →
  ∃ m', undo_last_operation m fs = (reported r, m', fs') ∧
        undo_stack m' = undo_stack m ∧ redo_stack m' = redo_stack m ∧
        reported r ≠ Return true.
Proof.
  intros Hb Hstack Hrev Hfail. exists m.
  split; [by eapply undo_last_operation_failure|].
  repeat split. by destruct r.
Qed.

(** C4, as the code has it. After a move is recorded (with a history
    bound of at least one) and its destination is gone,
    [undo_last_operation] returns [False] and changes neither the file
    system (so a source path that did not exist still does not) nor the
    log: the entry is back on top of the undo stack. *)
Theorem undo_move_destination_missing (m : UndoManager.t) (fs : FS)
    src dst md now :
  0 < max_history m →
  path_exists dst fs = false →
  let m1 := record_operation "move" src dst md now m in
  let entry := {| operation_type := "move"; source := src;
                  destination := dst; metadata := md; timestamp := now |} in
  undo_last_operation m1 fs = (Return false, m1, fs) ∧
  head (undo_stack m1) = Some entry.
Proof.
  intros Hpos Hgone m1 entry.
  assert (Hstack : undo_stack m1 = entry :: take (max_history m - 1) (undo_stack m)).
  { unfold m1. cbn [record_operation undo_stack]. unfold deque_append.
    destruct (max_history m) as [|k]; [lia|].
    cbn [take]. by rewrite Nat.sub_1_r. }
  split; [|by rewrite Hstack].
  change (Return false) with (reported (Return false)).
  eapply undo_last_operation_failure; [| exact Hstack | | done].
  - apply record_operation_bounded.
  - by apply reverse_move_destination_missing.
Qed.

End UndoManagerProperties.

(** *** The transaction log on concrete inputs *)
Section UndoManagerExamples.
Import UndoManager Examples.

Lemma undo_last_operation_failure_restores_witness :
  ∃ m', undo_last_operation scenario3_log scenario3_fs
          = (reported (Return false), m', scenario3_fs) ∧
        undo_stack m' = undo_stack scenario3_log ∧
        redo_stack m' = redo_stack scenario3_log ∧
        reported (Return false) ≠ Return true.
Proof.
  apply (undo_last_operation_failure_restores scenario3_log scenario3_fs
           scenario3_fs (mv "/src/f.txt" "/dst/f.txt" 0) [] (Return false)).
  - split; simpl; lia.
  - reflexivity.
  - reflexivity.
  - discriminate.
Defined.

(** The raising path: the destination is there but the source path is
    write-protected, so the reversal raises; the log is unchanged and
    the exception reaches the caller. *)
Example undo_last_operation_raises :
  undo_last_operation scenario3_log protected_fs
  = (Raise "Undo failed: Failed to reverse move: Permission denied",
     scenario3_log, protected_fs).
Proof. reflexivity. Qed.

Lemma undo_move_destination_missing_witness :
  undo_last_operation scenario3_log scenario3_fs
    = (Return false, scenario3_log, scenario3_fs) ∧
  head (undo_stack scenario3_log) = Some (mv "/src/f.txt" "/dst/f.txt" 0).
Proof.
  apply (undo_move_destination_missing (init 1000) scenario3_fs
           "/src/f.txt" "/dst/f.txt" ∅ 0%Z).
  - simpl. lia.
  - reflexivity.
Defined.

(** Scenario 3 as the specification words it fails: after the failed
    undo the entry is on the undo stack, not absent from it. *)
Lemma scenario3_entry_not_absent :
  ¬ (let '(r, m', fs') := undo_last_operation scenario3_log scenario3_fs in
     r = Return false ∧
     path_exists "/src/f.txt" fs' = false ∧
     mv "/src/f.txt" "/dst/f.txt" 0 ∉ undo_stack m').
Proof.
  intros (_ & _ & Habsent). apply Habsent. vm_compute. left.
Qed.

(** C1 on the code. Two jobs recorded one second apart: [undo_last_job]
    reverses the three moves of the second job in the order c, b, a (as
    the redo stack, newest first, shows) and then goes on to reverse
    the move of the first job as well, because it groups by a
    sixty-second window and not by job. *)
Theorem undo_last_job_crosses_job_boundary :
  let '(res, m', fs') := undo_last_job two_jobs_log two_jobs_fs in
  stats res = Some {| total := 4; successful := 4; failed := 0; errors := [] |} ∧
  redo_stack m' =
    [ mv "/in/x.txt" "/out/x.txt" (1 * second);
      mv "/in/a.txt" "/out/a.txt" (2 * second);
      mv "/in/b.txt" "/out/b.txt" (3 * second);
      mv "/in/c.txt" "/out/c.txt" (4 * second) ] ∧
  undo_stack m' = [] ∧
  path_exists "/in/x.txt" fs' = true ∧
  path_exists "/out/x.txt" fs' = false.
Proof. vm_compute. repeat split. Qed.

(** A job that takes longer than a minute is cut: only the operations
    within sixty seconds of the last one are reversed. *)
Example undo_last_job_cuts_slow_job :
  let '(res, m', fs') := undo_last_job slow_job_log slow_job_fs in
  stats res = Some {| total := 2; successful := 2; failed := 0; errors := [] |} ∧
  undo_stack m' = [ mv "/in/a.txt" "/out/a.txt" (0 * second) ] ∧
  path_exists "/in/a.txt" fs' = false.
Proof. vm_compute. repeat split. Qed.

End UndoManagerExamples.


(** ** The scanner *)
Section ScanningProperties.
Import ScanningService.

(** Induction on directory trees, with the hypothesis for every entry
    of a directory. *)
Lemma node_nested_ind (P : node → Prop) :
  (∀ name r s1 s2, P (FileNode name r s1 s2)) →
  (∀ name r s entries, Forall P entries → P (DirNode name r s entries)) →
  ∀ n, P n.
Proof.
  intros Hfile Hdir. fix IH 1. intros [name r s1 s2 | name r s entries].
  - apply Hfile.
  - apply Hdir. induction entries as [|e entries IHentries]; constructor.
    + apply IH.
    + apply IHentries.
Qed.

(** A loop that ends without an exception keeps what each of its
    iterations keeps. *)
Lemma for_each_invariant {A B} (I : B → Prop) (body : B → A → outcome B)
    (l : list A) :
  (∀ b x b', x ∈ l → I b → body b x = Return b' → I b') →
  ∀ b b', I b → for_each body l b = Return b' → I b'.
Proof.
  induction l as [|x l IHl]; intros Hstep b b' Hb Hrun; simpl in Hrun.
  - by simplify_eq.
  - destruct (body b x) as [b1|e] eqn:Hx; [|done].
    eapply IHl; [| |exact Hrun].
    + intros b2 y b3 Hy. apply Hstep. by right.
    + eapply Hstep; [by left | exact Hb | exact Hx].
Qed.


Lemma for_each_ext_in {A B} (f g : B → A → outcome B) (l : list A) :
  (∀ b x, x ∈ l → f b x = g b x) → ∀ b, for_each f l b = for_each g l b.
Proof.
  induction l as [|x l IHl]; intros Heq b; [done|].
  simpl. rewrite Heq by (by left). destruct (g b x); [|done]. apply IHl.
  intros b' y Hy. apply Heq. by right.
Qed.

(** A [scan] that returns has walked the whole tree. *)
Lemma scan_Return root_path root flt exclude_dirs res :
  scan root_path root flt exclude_dirs = Return res →
  ∃ acc,
    walk flt (effective_exclude_dirs exclude_dirs) root_path root
      {| files := []; folders := []; errors := []; skipped_count := 0 |}
    = Return acc ∧
    res = {| ScanResult.files := files acc;
             ScanResult.folders := folders acc;
             ScanResult.total_count := length (files acc);
             ScanResult.errors := errors acc |}.
Proof.
  unfold scan. destruct (String.eqb root_path ""); [done|].
  destruct (root_resolved root) as [root_rp| |]; cbn [file_path_in_scan];
    [|done|done].
  fold (effective_exclude_dirs exclude_dirs).
  destruct (walk _ _ _ _ _) as [acc|e]; [|done].
  intros [= <-]. by exists acc.
Qed.

(** An invariant of the accumulator that [scan_file] keeps and that
    does not depend on the folder list is kept by the whole walk. *)
Lemma walk_invariant (I : Acc → Prop) flt exclude_dirs :
  (∀ dir_path acc n acc',
     I acc → scan_file flt dir_path acc n = Return acc' → I acc') →
  (∀ acc item, I acc →
     I {| files := files acc; folders := folders acc ++ [item];
          errors := errors acc; skipped_count := skipped_count acc |}) →
  (∀ acc msg, I acc →
     I {| files := files acc; folders := folders acc;
          errors := errors acc ++ [msg]; skipped_count := skipped_count acc |}) →
  ∀ n dir_path acc acc',
    I acc → walk flt exclude_dirs dir_path n acc = Return acc' → I acc'.
Proof.
  intros Hfile Hfolder Herror n.
  induction n as [name r s1 s2 | name r s entries IH] using node_nested_ind;
    intros dir_path acc acc' Hacc Hwalk.
  - cbn in Hwalk. by simplify_eq.
  - cbn [walk] in Hwalk.
    destruct (scan_dir flt dir_path r s entries acc) as [acc1|e] eqn:Hdir; [|done].
    assert (Hacc1 : I acc1).
    { unfold scan_dir in Hdir. destruct r as [rp| |]; cbn [file_path_in_scan] in *; [|done|done].
      destruct s as [folder_stat|e].
      - eapply for_each_invariant; [| |exact Hdir].
        + intros b x b' _ Hb Hx. by eapply Hfile.
        + by apply Hfolder.
      - simplify_eq. by apply Herror. }
    eapply for_each_invariant; [| exact Hacc1 | exact Hwalk].
    intros b d b' Hd Hb Hstep.
    destruct d as [|d_name d_r d_stat d_entries]; [by simplify_eq|].
    case_bool_decide; [by simplify_eq|].
    rewrite Forall_forall in IH. by eapply (IH _ Hd).
Qed.

Lemma should_include_extension file_path st flt E :
  extensions flt = Some E → E ≠ ∅ →
  _should_include_file file_path st flt = true →
  lower (path_suffix file_path) ∈ E.
Proof.
  intros HE Hne. unfold _should_include_file, extensions_active.
  rewrite HE. simpl. rewrite bool_decide_eq_false_2 by done. simpl.
  case_bool_decide; [done|]. simpl. discriminate.
Qed.

(** C6, as the code has it. When [scan] is given a non-empty extension
    set [E], every file of the returned [ScanResult] has a path, as the
    walk listed it, whose suffix in lower case is in [E].  This is the
    test [_should_include_file] makes; the [extension] property of the
    file reads the resolved path instead. *)
Theorem scan_extension_filter root_path root flt exclude_dirs E res :
  extensions flt = Some E → E ≠ ∅ →
  scan root_path root flt exclude_dirs = Return res →
  ∀ f, f ∈ ScanResult.files res → lower (path_suffix (FileItem.path f)) ∈ E.
Proof.
  intros HE Hne Hscan. apply scan_Return in Hscan as (acc & Hwalk & ->). simpl.
  revert Hwalk.
  apply (walk_invariant
           (fun acc : Acc =>
              ∀ f, f ∈ files acc → lower (path_suffix (FileItem.path f)) ∈ E));
    simpl; try done.
  - intros dir_path a n a' Ha Hfile.
    destruct n as [file_name r s1 s2|]; cbn [scan_file] in Hfile;
      [|by simplify_eq].
    destruct r as [rp| |]; cbn [file_path_in_scan] in *; [|done|done].
    destruct (_should_include_file _ s1 flt) eqn:Hinc; cbn [negb] in Hfile;
      [|by simplify_eq].
    destruct s2 as [stat_info|e]; simplify_eq; cbn; [|done].
    intros f [Hf | Hf%list_elem_of_singleton]%elem_of_app; [by apply Ha|].
    subst f. simpl. by eapply should_include_extension.
  - intros f Hf. by apply elem_of_nil in Hf.
Qed.


(** What [_should_include_file] asks of the size and the modification
    time of a file it accepts. *)
Lemma should_include_bounds file_path stat_info flt :
  _should_include_file file_path (Return stat_info) flt = true →
  (min_size flt ≤ st_size stat_info)%Z ∧
  (∀ mx, max_size flt = Some mx → mx ≠ 0%Z → (st_size stat_info ≤ mx)%Z) ∧
  (∀ d, min_date flt = Some d → (d ≤ st_mtime stat_info)%Z) ∧
  (∀ d, max_date flt = Some d → (st_mtime stat_info ≤ d)%Z).
Proof.
  unfold _should_include_file. destruct (_ && _); [done|].
  destruct (Z.ltb_spec (st_size stat_info) (min_size flt)); [done|].
  destruct (max_size flt) as [mx|], (min_date flt) as [d1|], (max_date flt) as [d2|];
    repeat match goal with
    | |- context [Z.eqb ?a ?b] => destruct (Z.eqb_spec a b); cbn [negb andb]
    | |- context [Z.ltb ?a ?b] => destruct (Z.ltb_spec a b); cbn [negb andb]
    end; try done; intros _; repeat split; intros; simplify_eq; lia.
Qed.


Lemma scan_file_ext flt flt' :
  (∀ p st, _should_include_file p st flt = _should_include_file p st flt') →
  ∀ dir_path acc n, scan_file flt dir_path acc n = scan_file flt' dir_path acc n.
Proof.
  intros Heq dir_path acc [file_name r s1 s2|]; [|done].
  cbn [scan_file]. by rewrite Heq.
Qed.

Lemma walk_ext flt flt' exclude_dirs :
  (∀ p st, _should_include_file p st flt = _should_include_file p st flt') →
  ∀ n dir_path acc,
    walk flt exclude_dirs dir_path n acc = walk flt' exclude_dirs dir_path n acc.
Proof.
  intros Heq n.
  induction n as [name r s1 s2 | name r s entries IH] using node_nested_ind;
    intros dir_path acc; [done|].
  cbn [walk].
  assert (Hdir : scan_dir flt dir_path r s entries acc
                 = scan_dir flt' dir_path r s entries acc).
  { unfold scan_dir. destruct r; cbn [file_path_in_scan]; [|done|done].
    destruct s; [|done].
    apply for_each_ext_in. intros b x _. by apply scan_file_ext. }
  rewrite Hdir. destruct (scan_dir flt' dir_path r s entries acc); [|done].
  apply for_each_ext_in.
  intros b d Hd. destruct d as [|d_name d_r d_stat d_entries]; [done|].
  case_bool_decide; [done|]. rewrite Forall_forall in IH. by apply (IH _ Hd).
Qed.





(** A file on which the first [stat] raises is counted as skipped: it
    reaches neither the file list nor the error list. *)
Lemma scan_file_stat_denied flt dir_path acc file_name rp e st2 :
  scan_file flt dir_path acc (FileNode file_name (Resolved rp) (Raise e) st2)
  = Return {| files := files acc; folders := folders acc; errors := errors acc;
              skipped_count := skipped_count acc + 1 |}.
Proof.
  cbn [scan_file].
  assert (Hno : _should_include_file (path_join dir_path file_name) (Raise e) flt
                = false).
  { unfold _should_include_file. by destruct (_ && _). }
  by rewrite Hno.
Qed.

End ScanningProperties.

(** *** The scanner on concrete inputs *)
Section ScanningExamples.
Import ScanningService Examples.

(** Scenario 1: with the filter [{.pdf}] the result holds exactly the
    [.pdf] file. *)
Example scenario1_pdf_only :
  ∃ res, scan "/inbox" scenario1_tree (only_extensions (Some {[ ".pdf" ]})) None
         = Return res ∧
         FileItem.path <$> ScanResult.files res = ["/inbox/report.pdf"].
Proof. eexists. split; reflexivity. Qed.

Lemma scan_extension_filter_witness :
  lower (path_suffix (FileItem.path (file_at_size "/inbox/report.pdf" 500)))
  ∈ ({[ ".pdf" ]} : gset string).
Proof.
  apply (scan_extension_filter "/inbox" scenario1_tree
           (only_extensions (Some {[ ".pdf" ]})) None {[ ".pdf" ]}
           scenario1_pdf_result).
  - reflexivity.
  - apply (bool_decide_unpack _). vm_compute. exact I.
  - reflexivity.
  - left.
Defined.

(** C6 as stated fails three times.  With the empty set as filter the
    scan returns [photo.jpg], whose extension is in no empty set; with
    the filter [{.pdf}] it returns [REPORT.PDF], whose extension [.PDF]
    is not in the filter; and with the same filter it returns the
    symbolic link [report.pdf], whose [extension] is the [.bin] of the
    file it points to. *)
Lemma scan_extension_filter_counterexample :
  (∃ res f,
     scan "/inbox" scenario1_tree (only_extensions (Some ∅)) None = Return res ∧
     f ∈ ScanResult.files res ∧
     FileItem.extension f ∉ (∅ : gset string)) ∧
  (∃ res f,
     scan "/inbox" upper_tree (only_extensions (Some {[ ".pdf" ]})) None
       = Return res ∧
     f ∈ ScanResult.files res ∧
     FileItem.extension f ∉ ({[ ".pdf" ]} : gset string)) ∧
  (∃ res f,
     scan "/inbox" link_tree (only_extensions (Some {[ ".pdf" ]})) None
       = Return res ∧
     f ∈ ScanResult.files res ∧
     FileItem.path f = "/inbox/report.pdf" ∧
     FileItem.extension f = ".bin" ∧
     lower (FileItem.extension f) ∉ ({[ ".pdf" ]} : gset string)).
Proof.
  split; [|split].
  - eexists _, _. split; [reflexivity|]. split; [right; left|].
    apply not_elem_of_empty.
  - eexists _, _. split; [reflexivity|]. split; [left|].
    apply (bool_decide_unpack _). vm_compute. exact I.
  - eexists _, _. split; [reflexivity|]. split; [left|].
    split; [reflexivity|]. split; [reflexivity|].
    apply (bool_decide_unpack _). vm_compute. exact I.
Qed.


(** C7 on the code. [stat] on [secret.txt] is denied: the scan goes on
    and returns [notes.txt], but the denied file is in neither list; the
    error list is empty. *)
Theorem scan_drops_stat_error :
  ∃ res, scan "/inbox" denied_tree (only_extensions None) None = Return res ∧
         FileItem.path <$> ScanResult.files res = ["/inbox/notes.txt"] ∧
         ScanResult.errors res = [].
Proof. eexists. repeat split; reflexivity. Qed.

(** Only a failure of the second [stat] call, after the filter has
    passed the file, reaches the error list. *)
Example scan_reports_vanished_file :
  ∃ res, scan "/inbox" vanishing_tree (only_extensions None) None = Return res ∧
         ScanResult.files res = [] ∧
         ScanResult.errors res
         = ["Cannot read: /inbox/tmp.txt ([Errno 2] No such file or directory)"].
Proof. eexists. repeat split; reflexivity. Qed.

(** A path that cannot be resolved ends the scan: nothing is returned,
    not even the files collected before it. *)
Example scan_unresolvable_path_raises :
  ∃ e, scan "/inbox" loop_tree (only_extensions None) None = Raise e.
Proof. eexists. reflexivity. Qed.

(** With the empty set as filter both files of Scenario 1 come back. *)
Example scan_empty_set_includes_all :
  ∃ res, scan "/inbox" scenario1_tree (only_extensions (Some ∅)) None = Return res ∧
         FileItem.path <$> ScanResult.files res
         = ["/inbox/report.pdf"; "/inbox/photo.jpg"].
Proof. eexists. split; reflexivity. Qed.

End ScanningExamples.

(** ** The categorizer *)
Section CategorizationProperties.
Import CategorizationService Examples.

(** [_build_extension_map] only writes the extensions of the mapping
    it is given: an entry of the index under any other extension stays
    as it was. *)
Lemma build_into_keeps_other_entries (cm : mappings) (m : gmap string string) e :
  (∀ category extensions ext,
     (category, extensions) ∈ cm → ext ∈ extensions → lower ext ≠ e) →
  build_into cm m !! e = m !! e.
Proof.
  revert m. induction cm as [|[category extensions] cm IH]; intros m Hfresh;
    [done|].
  unfold build_into in *. cbn [fold_left]. rewrite IH.
  - assert (Hexts : ∀ ext, ext ∈ extensions → lower ext ≠ e).
    { intros ext Hext. eapply Hfresh; [by left | done]. }
    clear -Hexts. revert m.
    induction extensions as [|x extensions IHx]; intros m; [done|].
    cbn [fold_left]. rewrite IHx.
    + apply lookup_insert_ne. apply Hexts. by left.
    + intros ext Hext. apply Hexts. by right.
  - intros c exts ext Hin. eapply Hfresh. by right.
Qed.

(** C8 on the code. A service holding the default rules loads a
    mapping that has no rule for [.jpg]. The rule set is replaced, but
    the index is not rebuilt from it: [photo.jpg] is still categorized
    as "Images", where a service created from the same mapping answers
    the default category "Other". *)
Theorem load_from_config_keeps_stale_index :
  let '(r, svc) := load_from_config (Return custom_config) (init None "Other") in
  r = Return () ∧
  category_mappings svc = custom_config ∧
  categorize svc photo = Return {| Category.name := "Images" |} ∧
  categorize (init (Some custom_config) "Other") photo
    = Return {| Category.name := "Other" |}.
Proof. vm_compute. repeat split. Qed.

End CategorizationProperties.

(** ** The duplicate detector *)
Section DuplicateProperties.
Import DuplicateService.
Variable hexdigest : string → string → outcome string.


(** A hash the reader returned carries the service's algorithm and a
    digest that passes the [FileHash] validation again. *)
Lemma compute_file_hash_valid s f h :
  _compute_file_hash hexdigest s f = Return h →
  FileHash.new (FileHash.digest h) (hash_algorithm s) = Return h.
Proof.
  unfold _compute_file_hash, compute_hash.
  destruct (negb _); [done|].
  destruct (hexdigest _ _) as [d|e]; [|done].
  unfold FileHash.new.
  destruct (String.eqb d "") eqn:Hempty; [done|].
  destruct (negb (isalnum d)) eqn:Halnum; [done|].
  intros [= <-]. simpl. by rewrite Hempty, Halnum.
Qed.

Lemma digest_of_Some s f d :
  digest_of hexdigest s f = Some d →
  ∃ h, _compute_file_hash hexdigest s f = Return h ∧ FileHash.digest h = d ∧
       FileHash.new d (hash_algorithm s) = Return h.
Proof.
  unfold digest_of.
  destruct (_compute_file_hash hexdigest s f) as [h|e] eqn:Hh; [|done].
  intros [= <-]. exists h. split; [done|]. split; [done|].
  by apply (compute_file_hash_valid s f).
Qed.

(** The keys of the dictionary after [hash_map[k].append(f)]. *)
Lemma hash_map_append_keys k f (hm : list (string * list FileItem.t)) :
  (hash_map_append k f hm).*1
  = if decide (k ∈ hm.*1) then hm.*1 else (hm.*1) ++ [k].
Proof.
  induction hm as [|[k' fl] hm IH]; [done|]. cbn [hash_map_append].
  destruct (String.eqb_spec k k') as [->|Hne].
  - rewrite decide_True by (by left). done.
  - cbn [fmap list_fmap fst]. change (list_fmap _ _ fst ?l) with (l.*1). rewrite IH.
    destruct (decide (k ∈ hm.*1)) as [Hin|Hnin].
    + rewrite decide_True by (by right). done.
    + rewrite decide_False; [done|].
      intros [?|?]%elem_of_cons; [by apply Hne | by apply Hnin].
Qed.

(** The entries of the dictionary after [hash_map[k].append(f)]. *)
Lemma hash_map_append_entries k f (hm : list (string * list FileItem.t)) k' fl' :
  NoDup hm.*1 →
  (k', fl') ∈ hash_map_append k f hm →
  (k' ≠ k ∧ (k', fl') ∈ hm) ∨
  (k' = k ∧ ((∃ fl, (k, fl) ∈ hm ∧ fl' = fl ++ [f]) ∨
              ((¬ k ∈ hm.*1) ∧ fl' = [f]))).
Proof.
  induction hm as [|[k0 fl0] hm IH]; intros Hnd Hin.
  - apply list_elem_of_singleton in Hin as [= -> ->].
    right. split; [done|]. right. split; [apply not_elem_of_nil | done].
  - apply NoDup_cons in Hnd as [Hk0 Hnd]. cbn [hash_map_append] in Hin.
    destruct (String.eqb_spec k k0) as [->|Hne].
    + apply elem_of_cons in Hin as [[= -> ->] | Hin].
      * right. split; [done|]. left. exists fl0. split; [by left | done].
      * destruct (decide (k' = k0)) as [->|Hk'].
        -- exfalso. apply Hk0. apply list_elem_of_fmap. by exists (k0, fl').
        -- left. split; [done | by right].
    + apply elem_of_cons in Hin as [[= -> ->] | Hin].
      * left. split; [done | by left].
      * destruct (IH Hnd Hin) as [[Hk' Hmem] | [-> [(fl & Hmem & ->) | [Hnin ->]]]].
        -- left. split; [done | by right].
        -- right. split; [done|]. left. exists fl. split; [by right | done].
        -- right. split; [done|]. right. split; [|done].
           intros [?|?]%elem_of_cons; [by apply Hne | by apply Hnin].
Qed.

Lemma hash_step_hashed s seen st f :
  hashed hexdigest s seen st.1 → hashed hexdigest s (seen ++ [f]) (hash_step hexdigest s st f).1.
Proof.
  intros (Hnd & Hfl & Hkeys & Hvalid). unfold hash_step.
  destruct (_compute_file_hash hexdigest s f) as [h|e] eqn:Hh; cbn [fst].
  - assert (Hd : digest_of hexdigest s f = Some (FileHash.digest h)).
    { unfold digest_of. by rewrite Hh. }
    set (k := FileHash.digest h) in *.
    repeat split.
    + rewrite hash_map_append_keys. case_decide; [done|].
      apply NoDup_app. split; [done|]. split; [|apply NoDup_singleton].
      intros x Hx ->%list_elem_of_singleton. done.
    + intros d fl Hin. rewrite filter_app.
      destruct (hash_map_append_entries _ _ _ _ _ Hnd Hin)
        as [[Hne Hmem] | [-> [(fl0 & Hmem & ->) | [Hnin ->]]]].
      * rewrite filter_cons_False, filter_nil
          by (unfold same_digest; rewrite Hd; congruence).
        rewrite app_nil_r. by apply Hfl.
      * rewrite filter_cons_True, filter_nil by done.
        f_equal. by apply Hfl.
      * rewrite filter_cons_True, filter_nil by done.
        assert (Hnone : filter (same_digest hexdigest s k) seen = []).
        { destruct (filter (same_digest hexdigest s k) seen) as [|f0 l] eqn:Hflt; [done|].
          exfalso. apply Hnin.
          assert (Hf0 : f0 ∈ filter (same_digest hexdigest s k) seen)
            by (rewrite Hflt; by left).
          apply list_elem_of_filter in Hf0 as [Hf0d Hf0in].
          by apply (Hkeys k f0). }
        by rewrite Hnone.
    + intros d f0 [Hf0 | ->%list_elem_of_singleton]%elem_of_app Hd0;
        rewrite hash_map_append_keys; case_decide.
      * by eapply Hkeys.
      * apply elem_of_app. left. by eapply Hkeys.
      * simplify_eq. done.
      * simplify_eq. apply elem_of_app. right. by left.
    + intros d. rewrite hash_map_append_keys.
      assert (Hk : FileHash.new k (hash_algorithm s)
                   = Return {| FileHash.digest := k;
                               FileHash.algorithm := hash_algorithm s |}).
      { pose proof (compute_file_hash_valid _ _ _ Hh) as Hnew. fold k in Hnew.
        unfold FileHash.new in *.
        by destruct (String.eqb k ""), (negb (isalnum k)). }
      case_decide; [by apply Hvalid|].
      intros [Hin | ->%list_elem_of_singleton]%elem_of_app; [by apply Hvalid | done].
  - assert (Hd : digest_of hexdigest s f = None).
    { unfold digest_of. by rewrite Hh. }
    repeat split; [done | | | done].
    + intros d fl Hin. rewrite filter_app.
      rewrite filter_cons_False, filter_nil
          by (unfold same_digest; rewrite Hd; congruence).
      rewrite app_nil_r. by apply Hfl.
    + intros d f0 [Hf0 | ->%list_elem_of_singleton]%elem_of_app Hd0;
        [by eapply Hkeys | congruence].
Qed.

Lemma hash_loop_hashed s files seen st :
  hashed hexdigest s seen st.1 →
  hashed hexdigest s (seen ++ files) (fold_left (hash_step hexdigest s) files st).1.
Proof.
  revert seen st. induction files as [|f files IH]; intros seen st Hst.
  - by rewrite app_nil_r.
  - cbn [fold_left]. rewrite (assoc_L (++) seen [f] files : seen ++ f :: files = _).
    apply IH. by apply hash_step_hashed.
Qed.

(** The grouping loop never raises on a dictionary whose keys are valid
    digests, and every group it adds is an entry of the dictionary with
    at least two files, its first file being the original. *)
Lemma group_duplicates_groups s (hm : list (string * list FileItem.t)) acc :
  (∀ d, d ∈ hm.*1 →
     FileHash.new d (hash_algorithm s)
     = Return {| FileHash.digest := d; FileHash.algorithm := hash_algorithm s |}) →
  ∃ groups,
    group_duplicates s hm acc = Return (acc ++ groups) ∧
    Forall (λ g, ∃ d fl,
              (d, fl) ∈ hm ∧ 2 ≤ length fl ∧
              g = {| DuplicateGroup.hash :=
                       {| FileHash.digest := d;
                          FileHash.algorithm := hash_algorithm s |};
                     DuplicateGroup.files := fl;
                     DuplicateGroup.original := head fl |}) groups.
Proof.
  revert acc. induction hm as [|[d fl] hm IH]; intros acc Hvalid.
  - exists []. by rewrite app_nil_r.
  - destruct (IH (acc ++ [ {| DuplicateGroup.hash :=
                                 {| FileHash.digest := d;
                                    FileHash.algorithm := hash_algorithm s |};
                               DuplicateGroup.files := fl;
                               DuplicateGroup.original := head fl |} ]))
      as (groups2 & Hrun2 & Hall2).
    { intros d' Hd'. apply Hvalid. by right. }
    destruct (IH acc) as (groups1 & Hrun1 & Hall1).
    { intros d' Hd'. apply Hvalid. by right. }
    cbn [group_duplicates].
    destruct (2 <=? length fl) eqn:Hlen.
    + apply Nat.leb_le in Hlen.
      rewrite (Hvalid d) by (by left).
      unfold DuplicateGroup.new.
      destruct (length fl <? 2) eqn:Hlt; [apply Nat.ltb_lt in Hlt; lia|].
      assert (Horig : match head fl with Some o => Some o | None => head fl end
                      = head fl) by (by destruct (head fl)).
      rewrite Horig, Hrun2. eexists (_ :: groups2).
      split; [by rewrite <- (assoc_L (++))|].
      constructor.
      * exists d, fl. split; [by left | done].
      * eapply Forall_impl; [exact Hall2|].
        intros g (d' & fl' & Hin & Hge & ->). exists d', fl'.
        split; [by right | done].
    + rewrite Hrun1. exists groups1. split; [done|].
      eapply Forall_impl; [exact Hall1|].
      intros g (d' & fl' & Hin & Hge & ->). exists d', fl'.
      split; [by right | done].
Qed.

(** C2. [detect_duplicates] always returns, and every group it returns
    has at least two files, each of which hashes to the group's hash;
    the files of a group are the input files with that digest, in input
    order, and the original is the first of them.  The constructor of
    [DuplicateGroup] itself refuses fewer than two files: it returns a
    group only of two or more files and raises exactly when given fewer. *)
Theorem detect_duplicates_groups (s : DuplicateService.t) (files : list FileItem.t) :
  (∃ groups,
     detect_duplicates hexdigest s files = Return groups ∧
     Forall (λ g,
               2 ≤ length (DuplicateGroup.files g) ∧
               Forall (λ f, _compute_file_hash hexdigest s f
                            = Return (DuplicateGroup.hash g))
                      (DuplicateGroup.files g) ∧
               DuplicateGroup.files g
               = filter (same_digest hexdigest s
                           (FileHash.digest (DuplicateGroup.hash g))) files ∧
               DuplicateGroup.original g = head (DuplicateGroup.files g))
            groups) ∧
  (∀ h fl o,
     match DuplicateGroup.new h fl o with
     | Return g => 2 ≤ length (DuplicateGroup.files g) ∧ DuplicateGroup.files g = fl
     | Raise _ => length fl < 2
     end).
Proof.
  split.
  - unfold detect_duplicates.
    pose proof (hash_loop_hashed s files [] ([], [])) as Hloop.
    destruct (fold_left (hash_step hexdigest s) files ([], []))
      as [hm errors] eqn:Hfold.
    cbn [fst app] in Hloop.
    destruct Hloop as (Hnd & Hfl & Hkeys & Hvalid).
    { repeat split; [apply NoDup_nil_2 | | |];
        intros; exfalso; eapply not_elem_of_nil; eassumption. }
    destruct (group_duplicates_groups s hm [] Hvalid) as (groups & Hrun & Hall).
    rewrite Hrun. exists groups. split; [done|].
    eapply Forall_impl; [exact Hall|].
    intros g (d & fl & Hin & Hge & ->). cbn.
    pose proof (Hfl d fl Hin) as Hfilter.
    repeat split; [done | | done].
    apply Forall_forall. intros f Hf. rewrite Hfilter in Hf.
    apply list_elem_of_filter in Hf as [Hd _].
    apply digest_of_Some in Hd as (h & Hh & _ & Hnew).
    rewrite Hvalid in Hnew by (apply list_elem_of_fmap; by exists (d, fl)).
    by simplify_eq.
  - intros h fl o. unfold DuplicateGroup.new.
    destruct (length fl <? 2) eqn:Hlt.
    + by apply Nat.ltb_lt in Hlt.
    + apply Nat.ltb_ge in Hlt. done.
Qed.

End DuplicateProperties.

(** *** The duplicate detector on concrete inputs *)
Section DuplicateExamples.
Import DuplicateService Examples.

(** Scenario 2: [a.txt] and [b.txt] form the one group, [a.txt], first
    in the input, is its original; the unreadable file and the file with
    a digest of its own are left out. *)
Example scenario2_one_group :
  detect_duplicates scenario2_hexdigest {| hash_algorithm := "md5" |} scenario2_files
  = Return
      [ {| DuplicateGroup.hash :=
             {| FileHash.digest := "5d41402abc4b2a76b9719d911017c592";
                FileHash.algorithm := "md5" |};
           DuplicateGroup.files := [ file_at "/data/a.txt"; file_at "/data/b.txt" ];
           DuplicateGroup.original := Some (file_at "/data/a.txt") |} ].
Proof. reflexivity. Qed.

End DuplicateExamples.

(** ** Moving a file across volumes *)
Section MoveProperties.
Context {FS : Type} `{FileSystem FS}.



Lemma file_operations_copy_failure (fs fs1 fs' : FS) src dst e :
  path_exists src fs = true →
  parent_mkdir dst fs = (Return (), fs1) →
  shutil_copy2 src dst fs1 = (Raise e, fs') →
  FileOperations.copy src dst fs
  = (Raise (FileOperations.failed "copy" src dst), fs').
Proof.
  intros Hsrc Hmkdir Hcopy. unfold FileOperations.copy.
  by rewrite Hsrc, Hmkdir, Hcopy.
Qed.


End MoveProperties.

(** *** The disk with volumes *)
Section DiskProperties.

(** On the disk with volumes, a cross-volume [shutil.move] whose copy
    runs out of space raises, keeps the source and leaves the bytes
    written so far at the destination. *)
Lemma disk_move_copy_fails (fs : Disk.t) src dst c :
  Disk.contents fs !! src = Some c →
  Disk.volume fs src ≠ Disk.volume fs dst →
  Disk.free fs < String.length c →
  Disk.move src dst fs
  = (Raise (Disk.no_space src dst),
     Disk.mk (<[dst := substring 0 (Disk.free fs) c]> (Disk.contents fs))
             (Disk.volume fs) 0).
Proof.
  intros Hsrc Hvol Hfree. unfold Disk.move, Disk.rename.
  destruct (Nat.eqb_spec (Disk.volume fs src) (Disk.volume fs dst)); [done|].
  cbn [negb]. unfold Disk.copy2. rewrite Hsrc.
  destruct (Nat.leb_spec (String.length c) (Disk.free fs)); [lia|done].
Qed.

End DiskProperties.

(** *** Moving on concrete inputs *)
Section MoveExamples.
Import Examples.



(** The same through [FileOperations.move] and, for a copy, through
    [FileOperations.copy]. *)
Example file_operations_move_leaves_partial_destination :
  ∃ e fs', FileOperations.move "/home/u/notes.txt" "/mnt/usb/notes.txt" usb_fs
           = (Raise e, fs') ∧
           Disk.contents fs' !! "/mnt/usb/notes.txt" = Some "0123" ∧
           Disk.contents fs' !! "/home/u/notes.txt" = Some "0123456789".
Proof. eexists _, _. repeat split. Qed.

Example file_operations_copy_leaves_partial_destination :
  ∃ e fs', FileOperations.copy "/home/u/notes.txt" "/mnt/usb/notes.txt" usb_fs
           = (Raise e, fs') ∧
           Disk.contents fs' !! "/mnt/usb/notes.txt" = Some "0123".
Proof. eexists _, _. repeat split. Qed.

Example move_partial_contents :
  ∃ e fs', FileOrganizerPro.move_or_copy_file "move"
             "/home/u/notes.txt" "/mnt/usb/notes.txt" usb_fs
           = (Raise e, fs') ∧
           Disk.contents fs' !! "/mnt/usb/notes.txt" = Some "0123" ∧
           Disk.contents fs' !! "/home/u/notes.txt" = Some "0123456789".
Proof. eexists _, _. repeat split. Qed.

End MoveExamples.

(** * Further properties of the transaction log *)
Section UndoManagerMore.
Import UndoManager.
Context {FS : Type} `{FileSystem FS}.

Lemma take_app_take {A} n (a b : list A) :
  take n (a ++ take n b) = take n (a ++ b).
Proof.
  rewrite !take_app, take_take. f_equal. f_equal. lia.
Qed.

Lemma load_entries_well_formed n (ops stack : list UndoOperation) :
  length stack ≤ n →
  load_entries n (Return <$> ops) stack = (Return (), take n (reverse ops ++ stack)).
Proof.
  revert stack. induction ops as [|op ops IH]; intros stack Hlen.
  - simpl. by rewrite take_ge.
  - cbn [fmap list_fmap load_entries]. change (list_fmap _ _ Return ops) with (Return <$> ops).
    rewrite IH by apply deque_append_length.
    unfold deque_append. rewrite take_app_take, reverse_cons.
    by rewrite <- (assoc_L (++)).
Qed.

Lemma load_entries_malformed n (pre : list UndoOperation) e post stack :
  length stack ≤ n →
  load_entries n ((Return <$> pre) ++ Raise e :: post) stack
  = (Raise e, take n (reverse pre ++ stack)).
Proof.
  revert stack. induction pre as [|op pre IH]; intros stack Hlen.
  - simpl. by rewrite take_ge.
  - cbn [fmap list_fmap app load_entries].
    change (list_fmap _ _ Return pre) with (Return <$> pre).
    rewrite IH by apply deque_append_length.
    unfold deque_append. rewrite take_app_take, reverse_cons.
    by rewrite <- (assoc_L (++)).
Qed.

(** X1. Loading a well-formed history file fills each stack with the
    newest [max_history] entries of its list, the last entry of the file
    on top; older entries are dropped, whatever the stacks held before. *)
Theorem load_history_keeps_newest (m : UndoManager.t)
    (undo_entries redo_entries : list UndoOperation) :
  let m' := load_history
              (Some (Return {| hd_undo_stack := Some (Return <$> undo_entries);
                               hd_redo_stack := Some (Return <$> redo_entries) |})) m in
  undo_stack m' = take (max_history m) (reverse undo_entries) ∧
  redo_stack m' = take (max_history m) (reverse redo_entries) ∧
  bounded m'.
Proof.
  intros m'. subst m'. unfold load_history. cbn [default from_option id hd_undo_stack hd_redo_stack].
  rewrite !load_entries_well_formed by (simpl; lia).
  rewrite !app_nil_r. cbn. split; [done|]. split; [done|].
  split; simpl; rewrite length_take; lia.
Qed.

(** X2. A malformed entry in the undo list of the history file stops the
    load there: the undo stack holds the entries that came before it
    (the newest [max_history] of them), the entries after it are not
    loaded, and the redo stack is not touched at all, it keeps what it
    held before the call. *)
Theorem load_history_stops_at_malformed (m : UndoManager.t)
    (pre : list UndoOperation) e post redo_entries :
  let m' := load_history
              (Some (Return {| hd_undo_stack := Some ((Return <$> pre) ++ Raise e :: post);
                               hd_redo_stack := redo_entries |})) m in
  undo_stack m' = take (max_history m) (reverse pre) ∧
  redo_stack m' = redo_stack m.
Proof.
  intros m'. subst m'. unfold load_history. cbn [default from_option id hd_undo_stack hd_redo_stack].
  rewrite load_entries_malformed by (simpl; lia).
  rewrite app_nil_r. done.
Qed.

Lemma load_entries_length n entries (stack : list UndoOperation) :
  length stack ≤ n → length (load_entries n entries stack).2 ≤ n.
Proof.
  revert stack. induction entries as [|[op|e] entries IH]; intros stack Hlen;
    [done | | done].
  cbn [load_entries]. apply IH, deque_append_length.
Qed.

Lemma collect_job_rest_length maxlen last (undo : list UndoOperation) :
  length undo ≤ maxlen → length (collect_job maxlen last undo).2 ≤ maxlen.
Proof.
  induction undo as [|op undo IH]; intros Hlen; [simpl; lia|].
  cbn [collect_job]. destruct (same_job last op).
  - destruct (collect_job maxlen last undo) as [job rest] eqn:Hrec.
    simpl in *. apply IH. lia.
  - simpl. apply deque_append_length.
Qed.

Lemma reverse_loop_bounded maxlen (ops : list UndoOperation) (s : LoopState) :
  length (ls_undo s) ≤ maxlen → length (ls_redo s) ≤ maxlen →
  length (ls_undo (fold_left (reverse_step maxlen) ops s)) ≤ maxlen ∧
  length (ls_redo (fold_left (reverse_step maxlen) ops s)) ≤ maxlen.
Proof.
  revert s. induction ops as [|op ops IH]; intros s Hu Hr; [done|].
  cbn [fold_left]. apply IH; unfold reverse_step;
    destruct (_reverse_operation op (ls_fs s)) as [[[|]|e] fs']; simpl;
    try done; apply deque_append_length.
Qed.

(** X3. The history bound is an invariant: from a log whose stacks hold at
    most [max_history] entries, undoing one operation, redoing one,
    undoing a job, recording an operation and loading a history file all
    leave both stacks within the bound. *)
Theorem history_stays_bounded (m : UndoManager.t) (fs : FS) :
  bounded m →
  bounded (undo_last_operation m fs).1.2 ∧
  bounded (redo_last_operation m fs).1.2 ∧
  bounded (undo_last_job m fs).1.2 ∧
  (∀ ty src dst md now, bounded (record_operation ty src dst md now m)) ∧
  (∀ file, bounded (load_history file m)).
Proof.
  intros [Hu Hr]. split; [|split; [|split; [|split]]].
  - unfold undo_last_operation. destruct (undo_stack m) as [|op rest] eqn:Hstack.
    + simpl. split; [rewrite Hstack; simpl; lia | done].
    + cbn [deque_pop].
      destruct (_reverse_operation op fs) as [[[|]|e] fs']; split; simpl;
        try apply deque_append_length; try done.
      simpl in Hu. lia.
  - unfold redo_last_operation. destruct (redo_stack m) as [|op rest] eqn:Hstack.
    + simpl. split; [done | rewrite Hstack; simpl; lia].
    + cbn [deque_pop].
      destruct (_apply_operation op fs) as [[|] fs']; split; simpl;
        try apply deque_append_length; try done.
      simpl in Hr. lia.
  - unfold undo_last_job. destruct (undo_stack m) as [|op rest] eqn:Hstack.
    + simpl. split; [rewrite Hstack; simpl; lia | done].
    + pose proof (collect_job_rest_length (max_history m) (timestamp op)
                    (op :: rest) Hu) as Hrest.
      destruct (collect_job (max_history m) (timestamp op) (op :: rest))
        as [job undo] eqn:Hcollect.
      destruct job as [|j job]; [by split|].
      match goal with
      | |- context [fold_left ?f ?l ?s0] =>
          destruct (reverse_loop_bounded (max_history m) l s0) as [Hu' Hr']
      end; [done | done |].
      by split.
  - intros. split; simpl; [apply deque_append_length | lia].
  - intros [[data|e]|]; [|by split|by split].
    unfold load_history.
    pose proof (load_entries_length (max_history m)
                  (default [] (hd_undo_stack data)) []) as Hlu.
    pose proof (load_entries_length (max_history m)
                  (default [] (hd_redo_stack data)) []) as Hlr.
    destruct (load_entries _ (default [] (hd_undo_stack data)) []) as [[u|e] undo];
      [destruct (load_entries _ (default [] (hd_redo_stack data)) []) as [r redo]|];
      split; simpl in *; try done; try apply Hlu; try apply Hlr; lia.
Qed.

Lemma same_job_self (op : UndoOperation) : same_job (timestamp op) op = true.
Proof. unfold same_job. apply Z.leb_le. lia. Qed.

(** The counters after the [for] loop of [undo_last_job]. *)
Lemma reverse_loop_stats maxlen (ops : list UndoOperation) (s : LoopState) :
  let s' := fold_left (reverse_step maxlen) ops s in
  total (ls_stats s') = total (ls_stats s) ∧
  successful (ls_stats s') + failed (ls_stats s')
    = successful (ls_stats s) + failed (ls_stats s) + length ops ∧
  length (errors (ls_stats s')) + failed (ls_stats s)
    ≤ length (errors (ls_stats s)) + failed (ls_stats s').
Proof.
  revert s. induction ops as [|op ops IH]; intros s; [simpl; lia|].
  cbn [fold_left]. destruct (IH (reverse_step maxlen s op)) as (Ht & Hsum & Herr).
  cbv zeta. rewrite Ht, Hsum. revert Herr. unfold reverse_step.
  destruct (_reverse_operation op (ls_fs s)) as [[[|]|e] fs']; simpl;
    rewrite ?length_app; simpl; lia.
Qed.

(** X4. On a non-empty undo stack [undo_last_job] always finds a job (the
    top entry is in its own time window, so the "No job operations found"
    answer never occurs) and attempts every operation of the window: the
    counts of successes and failures add up to the total, the total is
    the size of the window, at most one error message is kept per
    failure, and [success] is true exactly when nothing failed. *)
Theorem undo_last_job_attempts_all (m : UndoManager.t) (fs : FS) op rest :
  undo_stack m = op :: rest →
  ∃ st,
    stats (undo_last_job m fs).1.1 = Some st ∧
    total st = length (collect_job (max_history m) (timestamp op) (undo_stack m)).1 ∧
    1 ≤ total st ∧
    successful st + failed st = total st ∧
    length (errors st) ≤ failed st ∧
    success (undo_last_job m fs).1.1 = (failed st =? 0).
Proof.
  intros Hstack. unfold undo_last_job. rewrite Hstack.
  cbn [collect_job]. rewrite same_job_self.
  destruct (collect_job (max_history m) (timestamp op) rest) as [job undo].
  match goal with
  | |- context [fold_left ?f ?l ?s0] =>
      pose proof (reverse_loop_stats (max_history m) l s0) as Hloop;
      set (s' := fold_left f l s0) in *
  end.
  cbv zeta in Hloop. destruct Hloop as (Ht & Hsum & Herr). cbn in Ht, Hsum, Herr.
  exists (ls_stats s'). cbn. repeat split; lia.
Qed.

(** Without eviction the loop of [undo_last_job] only moves entries. *)
Lemma reverse_loop_permutation maxlen (ops : list UndoOperation) (s : LoopState) :
  length (ls_undo s) + length (ls_redo s) + length ops ≤ maxlen →
  let s' := fold_left (reverse_step maxlen) ops s in
  ls_undo s' ++ ls_redo s' ≡ₚ ops ++ ls_undo s ++ ls_redo s.
Proof.
  revert s. induction ops as [|op ops IH]; intros s Hlen; [done|].
  cbn [fold_left]. cbv zeta. simpl in Hlen. rewrite IH.
  - unfold reverse_step.
    destruct (_reverse_operation op (ls_fs s)) as [[[|]|e] fs']; simpl;
      rewrite deque_append_room by lia; solve_Permutation.
  - unfold reverse_step.
    destruct (_reverse_operation op (ls_fs s)) as [[[|]|e] fs']; simpl;
      rewrite deque_append_room by lia; simpl; lia.
Qed.

(** X5. History is never lost while there is room: when the two stacks
    together hold at most [max_history] entries, [undo_last_operation],
    [redo_last_operation] and [undo_last_job] only move entries between
    the stacks; afterwards the stacks hold the same entries as before,
    whether the reversals succeeded, failed or raised. *)
Theorem history_entries_conserved (m : UndoManager.t) (fs : FS) :
  length (undo_stack m) + length (redo_stack m) ≤ max_history m →
  (let m' := (undo_last_operation m fs).1.2 in
   undo_stack m' ++ redo_stack m' ≡ₚ undo_stack m ++ redo_stack m) ∧
  (let m' := (redo_last_operation m fs).1.2 in
   undo_stack m' ++ redo_stack m' ≡ₚ undo_stack m ++ redo_stack m) ∧
  (let m' := (undo_last_job m fs).1.2 in
   undo_stack m' ++ redo_stack m' ≡ₚ undo_stack m ++ redo_stack m).
Proof.
  intros Hroom. split; [|split]; cbv zeta.
  - unfold undo_last_operation. destruct (undo_stack m) as [|op rest] eqn:Hstack;
      [simpl; by rewrite Hstack|]. cbn [deque_pop]. simpl in Hroom.
    destruct (_reverse_operation op fs) as [[[|]|e] fs']; simpl;
      rewrite deque_append_room by lia; solve_Permutation.
  - unfold redo_last_operation. destruct (redo_stack m) as [|op rest] eqn:Hstack;
      [simpl; by rewrite Hstack|]. cbn [deque_pop]. simpl in Hroom.
    destruct (_apply_operation op fs) as [[|] fs']; simpl;
      rewrite deque_append_room by lia; solve_Permutation.
  - unfold undo_last_job. destruct (undo_stack m) as [|op rest] eqn:Hstack;
      [simpl; by rewrite Hstack|].
    destruct (collect_job (max_history m) (timestamp op) (op :: rest))
      as [job undo] eqn:Hcollect.
    apply collect_job_split in Hcollect as (Hsplit & _); [|simpl in *; lia].
    destruct job as [|j job]; [by rewrite Hsplit|].
    cbn [fst snd undo_stack redo_stack save_history set_stacks].
    rewrite reverse_loop_permutation.
    + cbn [ls_undo ls_redo]. rewrite Hsplit. by rewrite <- (assoc_L (++)).
    + cbn [ls_undo ls_redo].
      assert (Hl : length (op :: rest) = length ((j :: job) ++ undo))
        by (by rewrite Hsplit).
      rewrite length_app in Hl. simpl in *. lia.
Qed.

Lemma redo_last_operation_failure (m : UndoManager.t) (fs fs' : FS) op rest :
  bounded m →
  redo_stack m = op :: rest →
  _apply_operation op fs = (false, fs') →
  redo_last_operation m fs = (false, m, fs').
Proof.
  intros [_ Hr] Hstack Happly.
  assert (Hback : deque_append (max_history m) rest op = redo_stack m).
  { apply deque_pop_append; [done | by rewrite Hstack]. }
  unfold redo_last_operation. rewrite Hstack. cbn [deque_pop]. rewrite Happly.
  rewrite Hback. by destruct m.
Qed.

Lemma undo_then_redo (m : UndoManager.t) (fs fs1 fs2 : FS) op rest :
  bounded m →
  length (redo_stack m) < max_history m →
  undo_stack m = op :: rest →
  _reverse_operation op fs = (Return true, fs1) →
  _apply_operation op fs1 = (true, fs2) →
  ∃ m1 m2,
    undo_last_operation m fs = (Return true, m1, fs1) ∧
    redo_last_operation m1 fs1 = (true, m2, fs2) ∧
    undo_stack m2 = undo_stack m ∧
    redo_stack m2 = redo_stack m.
Proof.
  intros [Hu Hr] Hroom Hstack Hrev Happly.
  unfold undo_last_operation. rewrite Hstack. cbn [deque_pop]. rewrite Hrev.
  eexists _, _. split; [reflexivity|].
  unfold redo_last_operation. cbn [redo_stack save_history set_stacks].
  rewrite deque_append_room by done. cbn [deque_pop]. rewrite Happly.
  split; [reflexivity|]. cbn.
  split; [|done]. apply take_ge. by rewrite Hstack in Hu.
Qed.

(** X6. An undo followed by a redo brings the log back: when the top
    operation is reversed successfully and then re-applied successfully,
    both calls report success and the undo and redo stacks are what they
    were before the undo (the redo stack must not be full, or its oldest
    entry is evicted by the undo). *)
Theorem undo_then_redo_restores_stacks (m : UndoManager.t) (fs fs1 fs2 : FS)
    op rest :
  bounded m →
  length (redo_stack m) < max_history m →
  undo_stack m = op :: rest →
  _reverse_operation op fs = (Return true, fs1) →
  _apply_operation op fs1 = (true, fs2) →
  ∃ m1 m2,
    undo_last_operation m fs = (Return true, m1, fs1) ∧
    redo_last_operation m1 fs1 = (true, m2, fs2) ∧
    undo_stack m2 = undo_stack m ∧
    redo_stack m2 = redo_stack m.
Proof. apply undo_then_redo. Qed.

(** X7. Only moves and copies can be redone. For an undone operation of
    any other type, a delete in particular, [redo_last_operation] returns
    [False] and changes neither the log nor the file system: the entry
    stays on the redo stack for good. *)
Theorem redo_never_reapplies_delete (m : UndoManager.t) (fs : FS) op rest :
  bounded m →
  redo_stack m = op :: rest →
  operation_type op ≠ "move" →
  operation_type op ≠ "copy" →
  redo_last_operation m fs = (false, m, fs).
Proof.
  intros Hb Hstack Hmove Hcopy.
  eapply redo_last_operation_failure; [done | done |].
  unfold _apply_operation.
  destruct (String.eqb_spec (operation_type op) "move"); [done|].
  destruct (String.eqb_spec (operation_type op) "copy"); [done|].
  reflexivity.
Qed.

(** X8. [preview_undo] predicts a failed undo: when the preview of the
    top entry shows a move or a copy whose destination does not exist,
    [undo_last_operation] returns [False] and changes neither the log
    nor the file system. *)
Theorem preview_missing_destination_predicts_failure (m : UndoManager.t) (fs : FS) e :
  bounded m →
  preview_undo 1 m fs = [e] →
  pv_exists e = false →
  pv_type e = "move" ∨ pv_type e = "copy" →
  undo_last_operation m fs = (Return false, m, fs).
Proof.
  intros Hb Hpreview Hexists Htype. unfold preview_undo in Hpreview.
  destruct (undo_stack m) as [|op rest] eqn:Hstack.
  { by rewrite take_nil in Hpreview. }
  assert (Hn : Z.to_nat (Z.min 1 (Z.of_nat (length (op :: rest)))) = 1)
    by (simpl; lia).
  rewrite Hn in Hpreview. cbn in Hpreview. simplify_eq. cbn in *.
  change (Return false) with (reported (Return false)).
  eapply undo_last_operation_failure; [done | done | | done].
  unfold _reverse_operation. destruct Htype as [-> | ->]; cbn; by rewrite Hexists.
Qed.

End UndoManagerMore.

(** ** Undo and redo of a move on the simple file system *)
Section UndoRedoMove.
Import UndoManager.

Lemma simple_reverse_move (fs : SimpleFS.t) src dst md now c :
  SimpleFS.contents fs !! dst = Some c →
  src ∉ SimpleFS.denied fs → dst ∉ SimpleFS.denied fs →
  _reverse_operation
    {| operation_type := "move"; source := src; destination := dst;
       metadata := md; timestamp := now |} fs
  = (Return true,
     SimpleFS.mk (<[src := c]> (delete dst (SimpleFS.contents fs)))
                 (SimpleFS.denied fs)).
Proof.
  intros Hdst Hs Hd. unfold _reverse_operation. cbn.
  unfold SimpleFS.exists_, SimpleFS.mkdir, SimpleFS.move.
  assert (Es : bool_decide (src ∈ SimpleFS.denied fs) = false)
    by (by apply bool_decide_eq_false_2).
  assert (Ed : bool_decide (dst ∈ SimpleFS.denied fs) = false)
    by (by apply bool_decide_eq_false_2).
  rewrite bool_decide_eq_true_2 by (by rewrite Hdst).
  repeat (first [rewrite Es | rewrite Ed | rewrite Hdst | progress cbn]).
  reflexivity.
Qed.

Lemma simple_apply_move (fs : SimpleFS.t) src dst md now c :
  SimpleFS.contents fs !! src = Some c →
  src ∉ SimpleFS.denied fs → dst ∉ SimpleFS.denied fs →
  _apply_operation
    {| operation_type := "move"; source := src; destination := dst;
       metadata := md; timestamp := now |} fs
  = (true,
     SimpleFS.mk (<[dst := c]> (delete src (SimpleFS.contents fs)))
                 (SimpleFS.denied fs)).
Proof.
  intros Hsrc Hs Hd. unfold _apply_operation. cbn.
  unfold SimpleFS.exists_, SimpleFS.mkdir, SimpleFS.move.
  assert (Es : bool_decide (src ∈ SimpleFS.denied fs) = false)
    by (by apply bool_decide_eq_false_2).
  assert (Ed : bool_decide (dst ∈ SimpleFS.denied fs) = false)
    by (by apply bool_decide_eq_false_2).
  rewrite bool_decide_eq_true_2 by (by rewrite Hsrc).
  repeat (first [rewrite Es | rewrite Ed | rewrite Hsrc | progress cbn]).
  reflexivity.
Qed.

(** X9. Undo and redo of a move, on the simple file system. When the
    moved file is at its destination, nothing is at the source path and
    neither path is write-protected, [undo_last_operation] puts the file
    back at the source with the same contents and leaves nothing at the
    destination; [redo_last_operation] then restores the file system to
    exactly what it was, and both stacks as well. *)
Theorem undo_redo_move_round_trip (m : UndoManager.t) (fs : SimpleFS.t)
    src dst md now c rest :
  bounded m →
  length (redo_stack m) < max_history m →
  undo_stack m = {| operation_type := "move"; source := src; destination := dst;
                    metadata := md; timestamp := now |} :: rest →
  SimpleFS.contents fs !! dst = Some c →
  SimpleFS.contents fs !! src = None →
  src ∉ SimpleFS.denied fs → dst ∉ SimpleFS.denied fs →
  ∃ m1 fs1 m2,
    undo_last_operation m fs = (Return true, m1, fs1) ∧
    SimpleFS.contents fs1 !! src = Some c ∧
    SimpleFS.contents fs1 !! dst = None ∧
    redo_last_operation m1 fs1 = (true, m2, fs) ∧
    undo_stack m2 = undo_stack m ∧
    redo_stack m2 = redo_stack m.
Proof.
  intros Hb Hroom Hstack Hdst Hsrc Hs Hd.
  assert (Hne : src ≠ dst) by congruence.
  set (fs1 := SimpleFS.mk (<[src := c]> (delete dst (SimpleFS.contents fs)))
                          (SimpleFS.denied fs)).
  assert (Hback : SimpleFS.mk (<[dst := c]> (delete src (SimpleFS.contents fs1)))
                              (SimpleFS.denied fs1) = fs).
  { destruct fs as [cts den]. unfold fs1. cbn in *. f_equal.
    apply map_eq. intros p.
    destruct (decide (p = dst)) as [->|Hpd]; [by rewrite lookup_insert_eq|].
    rewrite lookup_insert_ne by done.
    destruct (decide (p = src)) as [->|Hps]; [by rewrite lookup_delete_eq|].
    rewrite lookup_delete_ne by done. rewrite lookup_insert_ne by done.
    by rewrite lookup_delete_ne. }
  destruct (undo_then_redo m fs fs1 fs _ rest Hb Hroom Hstack) as (m1 & m2 & H1 & H2 & Hu & Hr).
  - by apply simple_reverse_move.
  - rewrite (simple_apply_move fs1 src dst md now c);
      [by rewrite Hback | | done | done].
    unfold fs1. cbn. by rewrite lookup_insert_eq.
  - exists m1, fs1, m2. repeat split; try done.
    + unfold fs1. cbn. by rewrite lookup_insert_eq.
    + unfold fs1. cbn. rewrite lookup_insert_ne by done. by rewrite lookup_delete_eq.
Qed.

End UndoRedoMove.

(** *** The transaction log on concrete inputs, continued *)
Section UndoManagerMoreExamples.
Import UndoManager Examples.

Lemma history_stays_bounded_witness :
  bounded (undo_last_operation moved_log moved_fs).1.2 ∧
  bounded (redo_last_operation moved_log moved_fs).1.2 ∧
  bounded (undo_last_job moved_log moved_fs).1.2 ∧
  (∀ ty src dst md now, bounded (record_operation ty src dst md now moved_log)) ∧
  (∀ file, bounded (load_history file moved_log)).
Proof.
  apply (history_stays_bounded moved_log moved_fs).
  split; simpl; lia.
Defined.

Lemma undo_last_job_attempts_all_witness :
  ∃ st,
    stats (undo_last_job two_jobs_log two_jobs_fs).1.1 = Some st ∧
    total st = length (collect_job (max_history two_jobs_log)
                         (timestamp (mv "/in/c.txt" "/out/c.txt" (4 * second)))
                         (undo_stack two_jobs_log)).1 ∧
    1 ≤ total st ∧
    successful st + failed st = total st ∧
    length (errors st) ≤ failed st ∧
    success (undo_last_job two_jobs_log two_jobs_fs).1.1 = (failed st =? 0).
Proof.
  apply (undo_last_job_attempts_all two_jobs_log two_jobs_fs
           (mv "/in/c.txt" "/out/c.txt" (4 * second))
           [ mv "/in/b.txt" "/out/b.txt" (3 * second);
             mv "/in/a.txt" "/out/a.txt" (2 * second);
             mv "/in/x.txt" "/out/x.txt" (1 * second) ]).
  reflexivity.
Defined.

Lemma history_entries_conserved_witness :
  (let m' := (undo_last_operation moved_log moved_fs).1.2 in
   undo_stack m' ++ redo_stack m' ≡ₚ undo_stack moved_log ++ redo_stack moved_log) ∧
  (let m' := (redo_last_operation moved_log moved_fs).1.2 in
   undo_stack m' ++ redo_stack m' ≡ₚ undo_stack moved_log ++ redo_stack moved_log) ∧
  (let m' := (undo_last_job moved_log moved_fs).1.2 in
   undo_stack m' ++ redo_stack m' ≡ₚ undo_stack moved_log ++ redo_stack moved_log).
Proof.
  apply (history_entries_conserved moved_log moved_fs). simpl. lia.
Defined.

Lemma undo_then_redo_restores_stacks_witness :
  ∃ m1 m2,
    undo_last_operation moved_log moved_fs = (Return true, m1, restored_fs) ∧
    redo_last_operation m1 restored_fs = (true, m2, moved_fs) ∧
    undo_stack m2 = undo_stack moved_log ∧
    redo_stack m2 = redo_stack moved_log.
Proof.
  apply (undo_then_redo_restores_stacks moved_log moved_fs restored_fs moved_fs
           (mv "/in/a.txt" "/out/a.txt" 0) []).
  - split; simpl; lia.
  - simpl. lia.
  - reflexivity.
  - reflexivity.
  - reflexivity.
Defined.

Lemma redo_never_reapplies_delete_witness :
  redo_last_operation undone_delete_log moved_fs = (false, undone_delete_log, moved_fs).
Proof.
  apply (redo_never_reapplies_delete undone_delete_log moved_fs
           {| operation_type := "delete"; source := "/in/a.txt";
              destination := "/in/a.txt";
              metadata := {[ "backup_path" := "/bak/a.txt" ]};
              timestamp := 0 |} []).
  - split; simpl; lia.
  - reflexivity.
  - discriminate.
  - discriminate.
Defined.

Lemma preview_missing_destination_predicts_failure_witness :
  undo_last_operation scenario3_log scenario3_fs
  = (Return false, scenario3_log, scenario3_fs).
Proof.
  apply (preview_missing_destination_predicts_failure scenario3_log scenario3_fs
           {| pv_type := "move"; pv_source := "/src/f.txt";
              pv_destination := "/dst/f.txt"; pv_timestamp := 0;
              pv_exists := false |}).
  - split; simpl; lia.
  - reflexivity.
  - reflexivity.
  - left. reflexivity.
Defined.

Lemma undo_redo_move_round_trip_witness :
  ∃ m1 fs1 m2,
    undo_last_operation moved_log moved_fs = (Return true, m1, fs1) ∧
    SimpleFS.contents fs1 !! "/in/a.txt" = Some "a" ∧
    SimpleFS.contents fs1 !! "/out/a.txt" = None ∧
    redo_last_operation m1 fs1 = (true, m2, moved_fs) ∧
    undo_stack m2 = undo_stack moved_log ∧
    redo_stack m2 = redo_stack moved_log.
Proof.
  apply (undo_redo_move_round_trip moved_log moved_fs
           "/in/a.txt" "/out/a.txt" ∅ 0%Z "a" []).
  - split; simpl; lia.
  - simpl. lia.
  - reflexivity.
  - reflexivity.
  - reflexivity.
  - apply not_elem_of_empty.
  - apply not_elem_of_empty.
Defined.

End UndoManagerMoreExamples.

(** * Further properties of the scanner *)
Section ScanningMore.
Import ScanningService.

Lemma prune_dir X name r st entries :
  prune X (DirNode name r st entries)
  = DirNode name r st (prune_entries X entries).
Proof.
  cbn [prune]. f_equal.
  induction entries as [|[f fr s1 s2 | d dr st' ds] entries IH]; [done | |].
  - cbn [prune_entries]. by rewrite IH.
  - cbn [prune_entries]. rewrite IH. done.
Qed.

Lemma static_dir name r st entries :
  static (DirNode name r st entries) ↔ Forall static entries.
Proof.
  cbn [static]. induction entries as [|e entries IH].
  - split; [by constructor | done].
  - rewrite Forall_cons. rewrite <- IH. done.
Qed.


(** [scan_file] leaves the accumulator alone on a directory entry. *)
Lemma scan_files_prune flt dir_path X entries acc :
  for_each (scan_file flt dir_path) (prune_entries X entries) acc
  = for_each (scan_file flt dir_path) entries acc.
Proof.
  revert acc.
  induction entries as [|[f fr s1 s2 | d dr st ds] entries IH]; intros acc;
    [done | |].
  - cbn [prune_entries for_each]. destruct (scan_file _ _ _ _); [|done]. apply IH.
  - cbn [prune_entries]. case_bool_decide.
    + rewrite IH. done.
    + rewrite prune_dir. cbn [for_each scan_file]. rewrite IH. done.
Qed.

Lemma filter_is_file_prune X entries :
  length (filter is_file (prune_entries X entries)) = length (filter is_file entries).
Proof.
  induction entries as [|[f fr s1 s2 | d dr st ds] entries IH]; [done | |].
  - cbn [prune_entries]. rewrite !filter_cons_True by done. simpl. by rewrite IH.
  - cbn [prune_entries].
    rewrite (filter_cons_False _ (DirNode d dr st ds)) by (cbn; auto).
    case_bool_decide; [done|].
    rewrite prune_dir. rewrite filter_cons_False by (cbn; auto). done.
Qed.

Lemma walk_prune flt X n :
  ∀ dir_path acc, walk flt X dir_path (prune X n) acc = walk flt X dir_path n acc.
Proof.
  induction n as [name r s1 s2 | name r s entries IH] using node_nested_ind;
    intros dir_path acc; [done|].
  rewrite prune_dir. cbn [walk].
  assert (Hdir : scan_dir flt dir_path r s (prune_entries X entries) acc
                 = scan_dir flt dir_path r s entries acc).
  { unfold scan_dir. destruct r; cbn [file_path_in_scan]; [|done|done].
    destruct s; [|done].
    by rewrite scan_files_prune, filter_is_file_prune. }
  rewrite Hdir. clear Hdir.
  destruct (scan_dir flt dir_path r s entries acc) as [acc0|e]; [|done].
  revert acc0.
  induction IH as [|e entries He _ IHentries]; intros acc0; [done|].
  destruct e as [f fr s1 s2 | d dr st ds].
  - cbn [prune_entries for_each]. apply IHentries.
  - cbn [prune_entries]. cbn [for_each]. destruct (decide (d ∈ X)) as [Hd|Hd].
    + rewrite !bool_decide_eq_true_2 by done. apply IHentries.
    + rewrite !bool_decide_eq_false_2 by done. cbn [for_each].
      rewrite prune_dir. rewrite bool_decide_eq_false_2 by done.
      rewrite <- prune_dir, He.
      destruct (walk flt X (path_join dir_path d) (DirNode d dr st ds) acc0);
        [|done].
      apply IHentries.
Qed.

Lemma root_resolved_prune X root :
  root_resolved (prune X root) = root_resolved root.
Proof. by destruct root. Qed.

(** X10. What lies in an excluded directory never influences a scan:
    [scan] returns the same result on a tree and on the tree with every
    directory named in the exclusion set removed, at any depth below the
    root. The exclusion set in force is the one given, or the default set
    ([.git], [__pycache__], [.venv], [node_modules]) when [None] or the
    empty set is given, so passing an empty set does not switch the
    exclusions off. *)
Theorem scan_ignores_excluded_directories root_path root flt exclude_dirs :
  scan root_path root flt exclude_dirs
  = scan root_path (prune (effective_exclude_dirs exclude_dirs) root) flt exclude_dirs
  ∧ effective_exclude_dirs (Some ∅) = default_exclude_dirs.
Proof.
  split; [|done]. unfold scan. destruct (String.eqb root_path ""); [done|].
  rewrite root_resolved_prune. destruct (root_resolved root) as [root_rp| |]; cbn [file_path_in_scan];
    [|done|done].
  fold (effective_exclude_dirs exclude_dirs). by rewrite walk_prune.
Qed.

(** The walk keeps an invariant of the accumulator that each directory
    visit keeps, for the directories reached from a path satisfying
    [Q]. *)
Lemma walk_invariant_at (Q : string → Prop) (I : Acc → Prop) flt X :
  (∀ d name, Q d → Q (path_join d name)) →
  (∀ d r st entries acc acc',
     Q d → I acc → scan_dir flt d r st entries acc = Return acc' → I acc') →
  ∀ n dir_path acc acc',
    Q dir_path → I acc → walk flt X dir_path n acc = Return acc' → I acc'.
Proof.
  intros Hjoin Hdir n.
  induction n as [name r s1 s2 | name r s entries IH] using node_nested_ind;
    intros dir_path acc acc' Hq Hacc Hwalk.
  - cbn in Hwalk. by simplify_eq.
  - cbn [walk] in Hwalk.
    destruct (scan_dir flt dir_path r s entries acc) as [acc1|e] eqn:Hsd; [|done].
    eapply for_each_invariant; [| | exact Hwalk].
    + intros b d b' Hd Hb Hstep.
      destruct d as [|d_name d_r d_stat d_entries]; [by simplify_eq|].
      case_bool_decide; [by simplify_eq|].
      rewrite Forall_forall in IH.
      eapply (IH _ Hd); [apply Hjoin, Hq | exact Hb | exact Hstep].
    + by eapply Hdir.
Qed.

Lemma append_assoc (a b c : string) : (a +:+ b) +:+ c = a +:+ (b +:+ c).
Proof.
  induction a as [|x a IH]; [done|].
  change (String x ((a +:+ b) +:+ c) = String x (a +:+ (b +:+ c))).
  by rewrite IH.
Qed.

(** Joining a name to a path made by joining to the root gives a path
    made by joining to the root. *)
Lemma path_join_under root d name :
  (d = root ∨ ∃ rel, d = path_join root rel) →
  ∃ rel, path_join d name = path_join root rel.
Proof.
  intros [-> | [rel ->]]; [by exists name|].
  unfold path_join at 1 2.
  destruct (String.eqb root "" || ends_with "/" root) eqn:Hroot.
  - destruct (String.eqb (root +:+ rel) "" || ends_with "/" (root +:+ rel)).
    + exists (rel +:+ name). unfold path_join. rewrite Hroot.
      by rewrite append_assoc.
    + exists (rel +:+ "/" +:+ name). unfold path_join. rewrite Hroot.
      by rewrite append_assoc.
  - destruct (String.eqb (root +:+ "/" +:+ rel) ""
              || ends_with "/" (root +:+ "/" +:+ rel)).
    + exists (rel +:+ name). unfold path_join. rewrite Hroot.
      by rewrite !append_assoc.
    + exists (rel +:+ "/" +:+ name). unfold path_join. rewrite Hroot.
      by rewrite !append_assoc.
Qed.

(** X11. A scan stays under its root: the path of every file in the
    result is the root path joined, as [os.path.join] does it, with a
    relative part, and the path of every folder in the result is the
    root path or the root path joined with a relative part. *)
Theorem scan_paths_under_root root_path root flt exclude_dirs res :
  scan root_path root flt exclude_dirs = Return res →
  (∀ f, f ∈ ScanResult.files res →
        ∃ rel, FileItem.path f = path_join root_path rel) ∧
  (∀ d, d ∈ ScanResult.folders res →
        FolderItem.path d = root_path ∨
        ∃ rel, FolderItem.path d = path_join root_path rel).
Proof.
  intros Hscan. apply scan_Return in Hscan as (final & Hwalk & ->). cbn.
  set (Q := fun d : string => d = root_path ∨ ∃ rel, d = path_join root_path rel).
  set (I := fun acc : Acc =>
              (∀ f, f ∈ files acc → ∃ rel, FileItem.path f = path_join root_path rel) ∧
              (∀ d, d ∈ folders acc → Q (FolderItem.path d))).
  revert Hwalk. apply (walk_invariant_at Q I).
  - intros d name Hd. right. by apply path_join_under.
  - intros d r st entries acc acc' Hq [Hf Hd]. unfold scan_dir.
    destruct r as [rp| |]; cbn [file_path_in_scan] in *; [|done|done].
    destruct st as [folder_stat|e]; [|intros [= <-]; by split].
    apply for_each_invariant.
    + intros b x b' _ [Hbf Hbd]. destruct x as [file_name fr s1 s2|];
        cbn [scan_file]; [|intros [= <-]; by split].
      destruct fr as [frp| |]; cbn [file_path_in_scan] in *; [|done|done].
      destruct (negb _); [intros [= <-]; by split|].
      destruct s2 as [stat_info|e]; intros [= <-]; [|by split].
      split; [|done]. cbn.
      intros f [Hin | ->%list_elem_of_singleton]%elem_of_app; [by apply Hbf|].
      cbn. by apply path_join_under.
    + split; [done|]. cbn.
      intros f [Hin | ->%list_elem_of_singleton]%elem_of_app; [by apply Hd | done].
  - by left.
  - split; intros x Hx; by apply elem_of_nil in Hx.
Qed.

(** The walk of a static tree keeps an invariant of the accumulator that
    scanning a file with one [stat] outcome keeps, as do adding a folder
    and adding a directory error. *)
Lemma walk_static_invariant (I : Acc → Prop) flt X :
  (∀ d acc name r st acc',
     I acc → scan_file flt d acc (FileNode name r st st) = Return acc' → I acc') →
  (∀ acc item, I acc →
     I {| files := files acc; folders := folders acc ++ [item];
          errors := errors acc; skipped_count := skipped_count acc |}) →
  (∀ acc d e, I acc →
     I {| files := files acc; folders := folders acc;
          errors := errors acc
                    ++ ["Cannot access directory: " +:+ d +:+ " (" +:+ e +:+ ")"];
          skipped_count := skipped_count acc |}) →
  ∀ n, static n → ∀ dir_path acc acc',
    I acc → walk flt X dir_path n acc = Return acc' → I acc'.
Proof.
  intros Hfile Hfolder Herror n.
  induction n as [name r s1 s2 | name r s entries IH] using node_nested_ind;
    intros Hstatic dir_path acc acc' Hacc Hwalk.
  - cbn in Hwalk. by simplify_eq.
  - apply static_dir in Hstatic. rewrite Forall_forall in IH, Hstatic.
    cbn [walk] in Hwalk.
    destruct (scan_dir flt dir_path r s entries acc) as [acc1|e] eqn:Hsd; [|done].
    eapply for_each_invariant; [| | exact Hwalk].
    + intros b d b' Hd Hb Hstep.
      destruct d as [|d_name d_r d_stat d_entries]; [by simplify_eq|].
      case_bool_decide; [by simplify_eq|].
      eapply (IH _ Hd); [by apply Hstatic | exact Hb | exact Hstep].
    + unfold scan_dir in Hsd. destruct r as [rp| |]; cbn [file_path_in_scan] in *; [|done|done].
      destruct s as [folder_stat|e]; [|simplify_eq; by apply Herror].
      eapply for_each_invariant; [| | exact Hsd]; [|by apply Hfolder].
      intros b x b' Hx Hb Hstep. destruct x as [file_name fr s1 s2|];
        [|cbn in Hstep; by simplify_eq].
      specialize (Hstatic _ Hx). cbn in Hstatic. subst s2. by eapply Hfile.
Qed.

(** X12. On a tree that does not change during the scan, every file of
    the result respects the size and date bounds: its size is at least
    [min_size] and at most [max_size] (when one other than 0 is given),
    and its modification time lies between [min_date] and [max_date]
    (when given). *)
Theorem scan_static_tree_respects_bounds root_path root flt exclude_dirs res :
  static root →
  scan root_path root flt exclude_dirs = Return res →
  ∀ f, f ∈ ScanResult.files res →
    (min_size flt ≤ FileItem.size f)%Z ∧
    (∀ mx, max_size flt = Some mx → mx ≠ 0%Z → (FileItem.size f ≤ mx)%Z) ∧
    (∀ d, min_date flt = Some d → (d ≤ FileItem.modified f)%Z) ∧
    (∀ d, max_date flt = Some d → (FileItem.modified f ≤ d)%Z).
Proof.
  intros Hstatic Hscan. apply scan_Return in Hscan as (final & Hwalk & ->). cbn.
  revert Hwalk.
  apply (walk_static_invariant
           (fun a : Acc => ∀ f, f ∈ files a →
              (min_size flt ≤ FileItem.size f)%Z ∧
              (∀ mx, max_size flt = Some mx → mx ≠ 0%Z → (FileItem.size f ≤ mx)%Z) ∧
              (∀ d, min_date flt = Some d → (d ≤ FileItem.modified f)%Z) ∧
              (∀ d, max_date flt = Some d → (FileItem.modified f ≤ d)%Z)));
    cbn; try done.
  - intros d acc name r st acc' Hacc. destruct r as [rp| |]; cbn [file_path_in_scan] in *; [|done|done].
    destruct (_should_include_file (path_join d name) st flt) eqn:Hinc;
      cbn [negb]; [|by intros [= <-]].
    destruct st as [stat_info|e]; intros [= <-]; [|done]. cbn.
    intros f [Hin | ->%list_elem_of_singleton]%elem_of_app; [by apply Hacc|].
    cbn. by eapply should_include_bounds.
  - intros f Hf. by apply elem_of_nil in Hf.
Qed.





Lemma should_include_max_size_zero file_path st E mn d1 d2 :
  _should_include_file file_path st
    {| extensions := E; min_size := mn; max_size := Some 0%Z;
       min_date := d1; max_date := d2 |}
  = _should_include_file file_path st
    {| extensions := E; min_size := mn; max_size := None;
       min_date := d1; max_date := d2 |}.
Proof. reflexivity. Qed.

(** X14. A [max_size] of 0 is no upper bound: [scan] with [max_size=0]
    returns what it returns with [max_size=None], files of any size
    included, instead of returning only empty files. *)
Theorem scan_max_size_zero_is_unbounded root_path root exclude_dirs E mn d1 d2 :
  scan root_path root
    {| extensions := E; min_size := mn; max_size := Some 0%Z;
       min_date := d1; max_date := d2 |} exclude_dirs
  = scan root_path root
    {| extensions := E; min_size := mn; max_size := None;
       min_date := d1; max_date := d2 |} exclude_dirs.
Proof.
  unfold scan. destruct (String.eqb root_path ""); [done|].
  destruct (root_resolved root) as [root_rp| |]; cbn [file_path_in_scan];
    [|done|done].
  rewrite (walk_ext _ {| extensions := E; min_size := mn; max_size := None;
                         min_date := d1; max_date := d2 |}); [done|].
  intros p st. apply should_include_max_size_zero.
Qed.

End ScanningMore.

(** *** The scanner on concrete inputs, continued *)
Section ScanningMoreExamples.
Import ScanningService Examples.

Lemma project_tree_static : static project_tree.
Proof. cbn. repeat split. Qed.

Lemma scan_paths_under_root_witness :
  (∀ f, f ∈ ScanResult.files project_result →
        ∃ rel, FileItem.path f = path_join "/project" rel) ∧
  (∀ d, d ∈ ScanResult.folders project_result →
        FolderItem.path d = "/project" ∨
        ∃ rel, FolderItem.path d = path_join "/project" rel).
Proof.
  apply (scan_paths_under_root "/project" project_tree
           (size_between 100 (Some 200%Z)) None project_result).
  reflexivity.
Defined.

(** A root path given with a trailing separator: the paths of the result
    carry no second one. *)
Example scan_root_with_trailing_separator :
  ∃ res, scan "/inbox/" scenario1_tree (only_extensions None) None = Return res ∧
         FileItem.path <$> ScanResult.files res
         = ["/inbox/report.pdf"; "/inbox/photo.jpg"] ∧
         FolderItem.name <$> ScanResult.folders res = ["inbox"].
Proof. eexists. repeat split; reflexivity. Qed.

Lemma scan_static_tree_respects_bounds_witness :
  (100 ≤ 120)%Z ∧
  (∀ mx, Some 200%Z = Some mx → mx ≠ 0%Z → (120 ≤ mx)%Z) ∧
  (∀ d, None = Some d → (d ≤ 1700000000)%Z) ∧
  (∀ d, None = Some d → (1700000000 ≤ d)%Z).
Proof.
  apply (scan_static_tree_respects_bounds "/project" project_tree
           (size_between 100 (Some 200%Z)) None project_result
           project_tree_static eq_refl
           {| FileItem.path := "/project/main.py";
              FileItem.resolved := "/project/main.py"; FileItem.size := 120;
              FileItem.modified := 1700000000; FileItem.category := None;
              FileItem.hash := None |}).
  left.
Defined.


(** The scan of the project skips [.git] and the nested [node_modules]
    under the default exclusions, also when the empty set is passed. *)
Example scan_project_default_exclusions :
  scan "/project" project_tree (size_between 0 None) (Some ∅)
  = scan "/project" project_tree (size_between 0 None) None ∧
  ∃ res, scan "/project" project_tree (size_between 0 None) (Some ∅) = Return res ∧
         FileItem.path <$> ScanResult.files res
         = ["/project/main.py"; "/project/web/app.js"].
Proof. split; [reflexivity|]. eexists. split; reflexivity. Qed.

End ScanningMoreExamples.

(** * Further properties of the categorizer *)
Section CategorizationMore.
Import CategorizationService.

Lemma insert_all_lookup (g : string → string) (c : string) (l : list string)
    (m : gmap string string) e :
  fold_left (fun m x => <[g x := c]> m) l m !! e
  = if bool_decide (e ∈ g <$> l) then Some c else m !! e.
Proof.
  revert m. induction l as [|x l IH]; intros m; [done|].
  cbn [fold_left]. rewrite IH. rewrite fmap_cons.
  destruct (decide (e ∈ g <$> l)) as [Hin|Hnin].
  - rewrite !bool_decide_eq_true_2; [done | by right | done].
  - rewrite (bool_decide_eq_false_2 (e ∈ g <$> l)) by done.
    destruct (decide (e = g x)) as [->|Hne].
    + rewrite bool_decide_eq_true_2 by (by left). by rewrite lookup_insert_eq.
    + rewrite bool_decide_eq_false_2.
      * by rewrite lookup_insert_ne.
      * intros [?|?]%elem_of_cons; done.
Qed.

Lemma delete_all_lookup (l : list string) (m : gmap string string) e :
  fold_left (fun m x => delete x m) l m !! e
  = if bool_decide (e ∈ l) then None else m !! e.
Proof.
  revert m. induction l as [|x l IH]; intros m; [done|].
  cbn [fold_left]. rewrite IH.
  destruct (decide (e ∈ l)) as [Hin|Hnin].
  - rewrite !bool_decide_eq_true_2; [done | by right | done].
  - rewrite (bool_decide_eq_false_2 (e ∈ l)) by done.
    destruct (decide (e = x)) as [->|Hne].
    + rewrite bool_decide_eq_true_2 by (by left). by rewrite lookup_delete_eq.
    + rewrite bool_decide_eq_false_2.
      * by rewrite lookup_delete_ne.
      * intros [?|?]%elem_of_cons; done.
Qed.

(** What the index holds after [_build_extension_map]: for an extension
    that some rule lists, the category of the last such rule; for any
    other, what it held before. *)
Lemma build_into_lookup (cm : mappings) (m : gmap string string) e :
  build_into cm m !! e
  = match last_category cm e with
    | Some c => Some c
    | None => m !! e
    end.
Proof.
  revert m. induction cm as [|[category extensions] cm IH]; intros m; [done|].
  unfold build_into in *. cbn [fold_left last_category]. rewrite IH.
  destruct (last_category cm e); [done|].
  rewrite (insert_all_lookup lower). by case_bool_decide.
Qed.

Lemma last_category_elem (cm : mappings) e c :
  last_category cm e = Some c → c ∈ cm.*1.
Proof.
  induction cm as [|[category extensions] cm IH]; [done|].
  cbn [last_category]. rewrite fmap_cons. destruct (last_category cm e) as [c'|].
  - intros [= ->]. right. by apply IH.
  - case_bool_decide; [|done]. intros [= ->]. by left.
Qed.

Lemma category_new_ok name :
  name ≠ "" → Category.new name = Return {| Category.name := name |}.
Proof.
  intros Hne. unfold Category.new.
  by destruct (String.eqb_spec name "").
Qed.

(** X15. Loading a configuration makes its rules effective: afterwards a
    file whose extension (in any case) is listed in the loaded mapping
    is categorized by the last rule of that mapping listing it, whatever
    the index held before the load. *)
Theorem load_from_config_applies_rules (s : t) (config : mappings)
    (file_item : FileItem.t) c :
  last_category config (lower (path_suffix (FileItem.path file_item))) = Some c →
  c ≠ "" →
  categorize (load_from_config (Return config) s).2 file_item
  = Return {| Category.name := c |}.
Proof.
  intros Hlast Hc. unfold categorize. cbn.
  rewrite build_into_lookup, Hlast. by apply category_new_ok.
Qed.

Lemma build_into_idempotent (cm : mappings) :
  build_into cm (build_into cm ∅) = build_into cm ∅.
Proof.
  apply map_eq. intros e. rewrite !build_into_lookup.
  by destruct (last_category cm e).
Qed.

(** X16. Saving and loading back is the identity on a service whose
    index is the one its rule set builds (as after [__init__]):
    [load_from_config] of what [save_to_config] wrote returns normally
    and leaves the rule set, the default category and the index as they
    were. *)
Theorem save_load_round_trip (s : t) :
  consistent s →
  load_from_config (Return (save_to_config s)) s = (Return (), s).
Proof.
  unfold consistent, load_from_config, save_to_config, _build_extension_map.
  intros Hs. cbn. f_equal. destruct s as [cm d idx]. cbn in *. f_equal.
  rewrite Hs. apply build_into_idempotent.
Qed.

Lemma init_consistent cm d : consistent (init cm d).
Proof. reflexivity. Qed.

(** X17. A service categorizes every file when it is created with a
    non-empty default category from a rule set without an empty category
    name: the answer is the default category or one of the rule set's
    categories, and no exception is raised.  The rule set is the one
    given or, when none or an empty one is given, the module-level
    default table as it stands when the service is created, which
    earlier [add_rule] and [remove_rule] calls on other services may
    have changed. *)
Theorem categorize_never_fails (defaults : mappings) (cm : option mappings)
    (d : string) (file_item : FileItem.t) :
  d ≠ "" →
  Forall (λ kv, kv.1 ≠ "") (effective_mappings_in defaults cm) →
  ∃ c, categorize (init_in defaults cm d) file_item
       = Return {| Category.name := c |} ∧
       (c = d ∨ c ∈ (effective_mappings_in defaults cm).*1).
Proof.
  intros Hd Hnames. unfold categorize, init_in. cbn.
  rewrite build_into_lookup, lookup_empty.
  destruct (last_category _ _) as [c|] eqn:Hlast.
  - apply last_category_elem in Hlast as Hin. exists c. split; [|by right].
    apply category_new_ok. apply list_elem_of_fmap in Hin as ([c' exts] & -> & Hin).
    rewrite Forall_forall in Hnames. by apply (Hnames _ Hin).
  - exists d. split; [by apply category_new_ok | by left].
Qed.

(** X18. [add_rule] takes effect at once and overrides: after
    [add_rule(category, extensions)] a file whose lower-cased extension
    is the normal form of one of the extensions (lower case, with a
    leading dot added when missing) is categorized as [category],
    whatever category held that extension before; files with any other
    extension are categorized as before. *)
Theorem add_rule_overrides (s : t) (category : string) (extensions : list string)
    (file_item : FileItem.t) :
  category ≠ "" →
  let e := lower (path_suffix (FileItem.path file_item)) in
  (e ∈ normalize <$> extensions →
   categorize (add_rule category extensions s) file_item
   = Return {| Category.name := category |}) ∧
  (e ∉ normalize <$> extensions →
   categorize (add_rule category extensions s) file_item = categorize s file_item).
Proof.
  intros Hc e. unfold categorize, add_rule. cbn. fold e.
  pose proof (insert_all_lookup id category (normalize <$> extensions)
                (_extension_map s) e) as Hlook.
  rewrite list_fmap_id in Hlook. cbn in Hlook. rewrite Hlook. split; intros He.
  - rewrite bool_decide_eq_true_2 by done. by apply category_new_ok.
  - by rewrite bool_decide_eq_false_2.
Qed.

(** X19. Removing a whole category: after [remove_rule(category)] on a
    known category, the category is gone from [get_categories], no
    extension resolves to it any more (a file is categorized as
    [category] only if that is the default category), and a file that
    was categorized as anything else is categorized as before. *)
Theorem remove_rule_removes_category (s : t) (category : string)
    (file_item : FileItem.t) :
  category ∈ get_categories s →
  let s' := remove_rule category None s in
  (¬ category ∈ get_categories s') ∧
  (∀ c, categorize s' file_item = Return c → Category.name c = category →
        default_category s = category) ∧
  (∀ c, categorize s file_item = Return c → Category.name c ≠ category →
        categorize s' file_item = Return c).
Proof.
  intros Hin s'. unfold s', remove_rule, has_category.
  rewrite bool_decide_eq_true_2 by done. cbn [negb].
  unfold get_categories, categorize. cbn. repeat split.
  - unfold delete_category. intros ([c l] & Hc & [Hne _]%list_elem_of_filter)%list_elem_of_fmap.
    by apply Hne.
  - intros c.
    destruct (filter _ (_extension_map s) !! _) as [name|] eqn:Hlook.
    + apply map_lookup_filter_Some in Hlook as [_ Hne]. cbn in Hne.
      unfold Category.new. destruct (String.eqb name ""); [done|].
      intros [= <-]. cbn. done.
    + unfold Category.new. destruct (String.eqb (default_category s) ""); [done|].
      intros [= <-]. cbn. done.
  - intros c.
    destruct (_extension_map s !! lower (path_suffix (FileItem.path file_item)))
      as [name|] eqn:Hlook.
    + intros Hcat Hne.
      assert (Hname : Category.name c = name).
      { unfold Category.new in Hcat. destruct (String.eqb name ""); [done|].
        by simplify_eq. }
      assert (Hkeep : filter (λ kv : string * string, kv.2 ≠ category) (_extension_map s)
                        !! lower (path_suffix (FileItem.path file_item))
                      = Some name).
      { apply map_lookup_filter_Some. split; [done|]. cbn. by rewrite <- Hname. }
      by rewrite Hkeep.
    + intros Hcat _.
      assert (Hnone : filter (λ kv : string * string, kv.2 ≠ category) (_extension_map s)
                        !! lower (path_suffix (FileItem.path file_item))
                      = None).
      { apply map_lookup_filter_None. by left. }
      by rewrite Hnone.
Qed.

(** X20. Removing extensions from a category unmaps them altogether:
    after [remove_rule(category, extensions)] on a known category, a
    file with one of these extensions falls back to the default
    category, also when the index had that extension under a different
    category; files with other extensions are categorized as before. *)
Theorem remove_rule_extensions_fall_back (s : t) (category : string)
    (extensions : list string) (file_item : FileItem.t) :
  category ∈ get_categories s →
  let e := lower (path_suffix (FileItem.path file_item)) in
  let s' := remove_rule category (Some extensions) s in
  (e ∈ normalize <$> extensions →
   categorize s' file_item = Category.new (default_category s)) ∧
  (e ∉ normalize <$> extensions →
   categorize s' file_item = categorize s file_item).
Proof.
  intros Hin e s'. unfold s', remove_rule, has_category.
  rewrite bool_decide_eq_true_2 by done. cbn [negb].
  unfold categorize. cbn. fold e. rewrite delete_all_lookup. split; intros He.
  - by rewrite bool_decide_eq_true_2.
  - by rewrite bool_decide_eq_false_2.
Qed.

Lemma categorize_path (s : t) (f f' : FileItem.t) :
  FileItem.path f = FileItem.path f' → categorize s f = categorize s f'.
Proof. intros Hp. unfold categorize. by rewrite Hp. Qed.

(** The category [categorize_batch] records for a file. *)
Lemma categorize_batch_from_spec (s : t) (files : list FileItem.t)
    (results : gmap string Category.t) :
  default_category s ≠ "" →
  ∃ m, categorize_batch_from s files results = Return m ∧
       (∀ f, f ∈ files →
          m !! FileItem.path f
          = Some (match categorize s f with
                  | Return c => c
                  | Raise _ => {| Category.name := default_category s |}
                  end)) ∧
       (∀ p, p ∉ FileItem.path <$> files → m !! p = results !! p).
Proof.
  intros Hd. revert results. induction files as [|f files IH]; intros results.
  - exists results. split; [done|]. split; [|done].
    intros f Hf. by apply elem_of_nil in Hf.
  - cbn [categorize_batch_from]. rewrite (category_new_ok _ Hd).
    set (answer := match categorize s f with
                   | Return c => c
                   | Raise _ => {| Category.name := default_category s |}
                   end).
    destruct (IH (<[FileItem.path f := answer]> results)) as (m & Hrun & Hfiles & Hrest).
    exists m. split; [|split].
    + unfold answer in Hrun. by destruct (categorize s f).
    + intros f' [-> | Hin]%elem_of_cons; [|by apply Hfiles].
      destruct (decide (FileItem.path f ∈ FileItem.path <$> files)) as [Hdup|Hnew].
      * apply list_elem_of_fmap in Hdup as (f'' & Hp & Hin'').
        rewrite (categorize_path s f f'' Hp).
        replace (FileItem.path f) with (FileItem.path f''). by apply Hfiles.
      * rewrite (Hrest _ Hnew). unfold answer. apply lookup_insert_eq.
    + intros p Hp. rewrite fmap_cons in Hp.
      rewrite Hrest by (intros ?; apply Hp; by right).
      rewrite lookup_insert_ne; [done|]. intros <-. apply Hp. by left.
Qed.

(** X21. With a non-empty default category [categorize_batch] never
    raises, and it agrees with [categorize]: the result maps the path of
    every file of the batch to the category [categorize] gives that file
    (the default category when [categorize] raises), and holds no other
    path. *)
Theorem categorize_batch_agrees (s : t) (files : list FileItem.t) :
  default_category s ≠ "" →
  ∃ m, categorize_batch s files = Return m ∧
       (∀ f, f ∈ files →
          m !! FileItem.path f
          = Some (match categorize s f with
                  | Return c => c
                  | Raise _ => {| Category.name := default_category s |}
                  end)) ∧
       (∀ p, p ∉ FileItem.path <$> files → m !! p = None).
Proof.
  intros Hd. unfold categorize_batch.
  destruct (categorize_batch_from_spec s files ∅ Hd) as (m & Hrun & Hfiles & Hrest).
  exists m. split; [done|]. split; [done|].
  intros p Hp. by rewrite (Hrest _ Hp).
Qed.

End CategorizationMore.

(** * Further properties of the duplicate detector *)
Section DuplicateMore.
Import DuplicateService.
Variable hexdigest : string → string → outcome string.

(** The groups the grouping loop adds: one per entry with two files or
    more, in dictionary order. *)
Lemma group_duplicates_exact s (hm : list (string * list FileItem.t)) acc :
  (∀ d, d ∈ hm.*1 →
     FileHash.new d (hash_algorithm s)
     = Return {| FileHash.digest := d; FileHash.algorithm := hash_algorithm s |}) →
  group_duplicates s hm acc
  = Return (acc ++ ((λ kv : string * list FileItem.t,
                       {| DuplicateGroup.hash :=
                            {| FileHash.digest := kv.1;
                               FileHash.algorithm := hash_algorithm s |};
                          DuplicateGroup.files := kv.2;
                          DuplicateGroup.original := head kv.2 |})
                    <$> filter (λ kv, 2 ≤ length kv.2) hm)).
Proof.
  revert acc. induction hm as [|[d fl] hm IH]; intros acc Hvalid.
  - cbn. by rewrite app_nil_r.
  - cbn [group_duplicates]. rewrite filter_cons. cbn [snd].
    destruct (Nat.leb_spec 2 (length fl)) as [Hlen|Hlen].
    + rewrite decide_True by done.
      rewrite (Hvalid d) by (by left). unfold DuplicateGroup.new.
      destruct (Nat.ltb_spec (length fl) 2); [lia|].
      assert (Horig : match head fl with Some o => Some o | None => head fl end
                      = head fl) by (by destruct (head fl)).
      rewrite Horig, IH by (intros d' Hd'; apply Hvalid; by right).
      rewrite fmap_cons. by rewrite <- (assoc_L (++)).
    + rewrite decide_False by lia.
      apply IH. intros d' Hd'. apply Hvalid. by right.
Qed.

Lemma NoDup_filter_keys {A} (P : string * A → Prop) `{∀ kv, Decision (P kv)}
    (l : list (string * A)) :
  NoDup l.*1 → NoDup (filter P l).*1.
Proof.
  intros Hnd. eapply sublist_NoDup; [exact Hnd|].
  apply fmap_sublist, sublist_filter.
Qed.

(** X22. Files with the same content always end up together, in one
    group: the digests of the groups [detect_duplicates] returns are
    pairwise different, and every digest that two or more of the input
    files hash to has a group, holding exactly the input files with that
    digest. *)
Theorem detect_duplicates_complete (s : DuplicateService.t) (files : list FileItem.t) :
  ∃ groups,
    detect_duplicates hexdigest s files = Return groups ∧
    NoDup ((λ g, FileHash.digest (DuplicateGroup.hash g)) <$> groups) ∧
    ∀ d, 2 ≤ length (filter (same_digest hexdigest s d) files) →
         ∃ g, g ∈ groups ∧
              FileHash.digest (DuplicateGroup.hash g) = d ∧
              DuplicateGroup.files g = filter (same_digest hexdigest s d) files.
Proof.
  unfold detect_duplicates.
  pose proof (hash_loop_hashed hexdigest s files [] ([], [])) as Hloop.
  destruct (fold_left (hash_step hexdigest s) files ([], [])) as [hm errors] eqn:Hfold.
  cbn [fst app] in Hloop.
  destruct Hloop as (Hnd & Hfl & Hkeys & Hvalid).
  { repeat split; [apply NoDup_nil_2 | | |];
      intros; exfalso; eapply not_elem_of_nil; eassumption. }
  rewrite (group_duplicates_exact s hm [] Hvalid). cbn [app].
  eexists. split; [reflexivity|]. split.
  - rewrite <- list_fmap_compose.
    apply (NoDup_filter_keys (λ kv, 2 ≤ length kv.2)) in Hnd.
    exact Hnd.
  - intros d Hlen.
    destruct (filter (same_digest hexdigest s d) files) as [|f0 fl0] eqn:Hflt;
      [simpl in Hlen; lia|].
    assert (Hf0 : f0 ∈ filter (same_digest hexdigest s d) files)
      by (rewrite Hflt; by left).
    apply list_elem_of_filter in Hf0 as [Hd0 Hin0].
    pose proof (Hkeys d f0 Hin0 Hd0) as Hkey.
    apply list_elem_of_fmap in Hkey as ([d' fl] & -> & Hentry). cbn in *.
    pose proof (Hfl _ _ Hentry) as Heq. rewrite Hflt in Heq.
    eexists. split; [|split].
    + apply list_elem_of_fmap. exists (d', fl). split; [reflexivity|].
      apply list_elem_of_filter. split; [|done]. cbn. by rewrite Heq.
    + done.
    + cbn. done.
Qed.

Lemma string_eqb_refl (a : string) : String.eqb a a = true.
Proof. by destruct (String.eqb_spec a a). Qed.

Lemma file_item_eqb_refl (f : FileItem.t) : FileItem.eqb f f = true.
Proof.
  unfold FileItem.eqb. rewrite string_eqb_refl, !Z.eqb_refl. cbn.
  destruct (FileItem.category f) as [c|], (FileItem.hash f) as [h|]; cbn;
    unfold Category.eqb, FileHash.eqb; by rewrite ?string_eqb_refl.
Qed.

Lemma file_item_eqb_path (f g : FileItem.t) :
  FileItem.path f ≠ FileItem.path g → FileItem.eqb f g = false.
Proof.
  intros Hne. unfold FileItem.eqb.
  by destruct (String.eqb_spec (FileItem.path f) (FileItem.path g)).
Qed.

(** For a group whose original is its first file and whose files have
    pairwise different paths, the duplicates are all files but the
    first. *)
Lemma duplicates_tail (h : FileHash.t) (fl : list FileItem.t) :
  NoDup (FileItem.path <$> fl) →
  DuplicateGroup.duplicates
    {| DuplicateGroup.hash := h; DuplicateGroup.files := fl;
       DuplicateGroup.original := head fl |} = tail fl.
Proof.
  unfold DuplicateGroup.duplicates. cbn. destruct fl as [|o rest]; [done|].
  cbn [head tail]. intros [Ho Hrest]%NoDup_cons.
  rewrite filter_cons_False by (cbn; rewrite file_item_eqb_refl; cbn; auto).
  clear Hrest. induction rest as [|r rest IH]; [done|].
  rewrite filter_cons_True.
  - f_equal. apply IH. intros Hin. apply Ho.
    change (FileItem.path o ∈ FileItem.path r :: (FileItem.path <$> rest)).
    by right.
  - cbn. rewrite file_item_eqb_path; [done|].
    intros Heq. apply Ho.
    change (FileItem.path o ∈ FileItem.path r :: (FileItem.path <$> rest)).
    rewrite Heq. by left.
Qed.

(** X23. When the input files have pairwise different paths, the
    duplicates of every group [detect_duplicates] returns are all its
    files but the first (the original), in order, so a group always has
    one duplicate fewer than files; and when no file has a negative
    size, [total_size] returns the sum of their sizes. *)
Theorem detected_duplicates_exclude_original (s : DuplicateService.t)
    (files : list FileItem.t) :
  NoDup (FileItem.path <$> files) →
  Forall (λ f, (0 ≤ FileItem.size f)%Z) files →
  ∃ groups,
    detect_duplicates hexdigest s files = Return groups ∧
    Forall (λ g,
              DuplicateGroup.duplicates g = tail (DuplicateGroup.files g) ∧
              length (DuplicateGroup.duplicates g) + 1
                = length (DuplicateGroup.files g) ∧
              DuplicateGroup.total_size g
                = Return (foldr Z.add 0%Z
                            (FileItem.size <$> tail (DuplicateGroup.files g))))
           groups.
Proof.
  intros Hpaths Hsizes. unfold detect_duplicates.
  pose proof (hash_loop_hashed hexdigest s files [] ([], [])) as Hloop.
  destruct (fold_left (hash_step hexdigest s) files ([], [])) as [hm errors] eqn:Hfold.
  cbn [fst app] in Hloop.
  destruct Hloop as (Hnd & Hfl & Hkeys & Hvalid).
  { repeat split; [apply NoDup_nil_2 | | |];
      intros; exfalso; eapply not_elem_of_nil; eassumption. }
  rewrite (group_duplicates_exact s hm [] Hvalid). cbn [app].
  eexists. split; [reflexivity|].
  apply Forall_fmap, Forall_forall. intros [d fl] [Hlen Hin]%list_elem_of_filter.
  cbn in Hlen. pose proof (Hfl _ _ Hin) as Heq.
  assert (Hsub : fl `sublist_of` files) by (rewrite Heq; apply sublist_filter).
  assert (Hnd' : NoDup (FileItem.path <$> fl)).
  { eapply sublist_NoDup; [exact Hpaths|]. by apply fmap_sublist. }
  assert (Hdup := duplicates_tail
                    {| FileHash.digest := d; FileHash.algorithm := hash_algorithm s |}
                    fl Hnd').
  unfold compose. cbv beta. cbn [fst snd]. rewrite Hdup. cbn [DuplicateGroup.files].
  split; [done|]. split.
  - destruct fl; simpl in *; lia.
  - unfold DuplicateGroup.total_size. rewrite Hdup.
    assert (Hpos : Forall (λ f, (0 ≤ FileItem.size f)%Z) (tail fl)).
    { rewrite Forall_forall in Hsizes. apply Forall_forall. intros f Hf.
      apply Hsizes. eapply elem_of_sublist; [|exact Hsub].
      destruct fl; [done|]. by right. }
    assert (Hsum : (0 ≤ foldr Z.add 0 (FileItem.size <$> tail fl))%Z).
    { clear -Hpos. induction Hpos as [|f l Hf _ IH]; cbn; lia. }
    cbv zeta.
    destruct (Z.ltb_spec (foldr Z.add 0%Z (FileItem.size <$> tail fl)) 0%Z);
      [lia | done].
Qed.

End DuplicateMore.

(** ** The post-hoc filters *)
Section FilterProperties.
Import DuplicateService.

Lemma ascii_lower_idemp (c : ascii) : ascii_lower (ascii_lower c) = ascii_lower c.
Proof. destruct c as [[] [] [] [] [] [] [] []]; reflexivity. Qed.

Lemma lower_idemp (x : string) : lower (lower x) = lower x.
Proof.
  induction x as [|c x IH]; [done|]. cbn. by rewrite ascii_lower_idemp, IH.
Qed.

Lemma has_extension_lower extensions group :
  has_extension (lower <$> extensions) group = has_extension extensions group.
Proof.
  unfold has_extension. f_equal.
  rewrite <- list_fmap_compose.
  assert (Heq : lower ∘ lower <$> extensions = lower <$> extensions).
  { apply list_fmap_ext. intros _ x _. apply lower_idemp. }
  by rewrite Heq.
Qed.

(** X24. The filters over computed groups. [filter_by_extension] does
    not depend on the case of the requested extensions, the two filters
    commute, and each returns a sublist of the groups it is given: no
    group is changed, reordered or added. *)
Theorem duplicate_filters_compose (groups : list DuplicateGroup.t)
    (extensions : list string) (min_size : Z) (max_size : option Z) :
  filter_by_extension groups (lower <$> extensions)
    = filter_by_extension groups extensions ∧
  filter_by_size (filter_by_extension groups extensions) min_size max_size
    = filter_by_extension (filter_by_size groups min_size max_size) extensions ∧
  filter_by_extension groups extensions `sublist_of` groups ∧
  filter_by_size groups min_size max_size `sublist_of` groups.
Proof.
  unfold filter_by_extension, filter_by_size. repeat split.
  - apply list_filter_iff. intros g. by rewrite has_extension_lower.
  - rewrite !list_filter_filter. apply list_filter_iff. intros g. tauto.
  - apply sublist_filter.
  - apply sublist_filter.
Qed.

End FilterProperties.


(** * Unique destination names *)
Section UniqueFilenameProperties.
Import FileOrganizerPro.

Lemma append_length (a b : string) :
  String.length (a +:+ b) = String.length a + String.length b.
Proof.
  induction a as [|x a IH]; [done|].
  change (S (String.length (a +:+ b)) = S (String.length a + String.length b)).
  by rewrite IH.
Qed.

Lemma append_inj_l (a b c : string) : a +:+ b = a +:+ c → b = c.
Proof.
  induction a as [|x a IH]; [done|].
  change (String x (a +:+ b) = String x (a +:+ c) → b = c).
  intros [= Heq]. by apply IH.
Qed.

Lemma append_inj_r (a b c : string) : a +:+ c = b +:+ c → a = b.
Proof.
  revert b. induction a as [|x a IH]; intros [|y b] Heq; [done | | |].
  - exfalso. apply (f_equal String.length) in Heq.
    rewrite !append_length in Heq. cbn in Heq. lia.
  - exfalso. apply (f_equal String.length) in Heq.
    rewrite !append_length in Heq. cbn in Heq. lia.
  - change (String x (a +:+ c) = String y (b +:+ c)) in Heq.
    injection Heq as -> Heq. f_equal. by apply IH.
Qed.

(** Different counters give different names. *)
Lemma numbered_inj (path : string) (j k : nat) :
  numbered path j = numbered path k → j = k.
Proof.
  unfold numbered, with_name. intros Heq.
  apply append_inj_l, append_inj_l, append_inj_l, append_inj_r in Heq.
  by apply (inj pretty) in Heq.
Qed.

(** The loop finds the first free name from [counter] on, when there is
    one within [fuel] steps. *)
Lemma unique_from_first_free (fs : SimpleFS.t) path fuel counter j :
  counter ≤ j < counter + fuel →
  path_exists (numbered path j) fs = false →
  ∃ k, counter ≤ k ≤ j ∧
       unique_from fuel path counter fs = Some (numbered path k) ∧
       path_exists (numbered path k) fs = false ∧
       ∀ i, counter ≤ i < k → path_exists (numbered path i) fs = true.
Proof.
  revert counter. induction fuel as [|fuel IH]; intros counter Hj Hfree; [lia|].
  cbn [unique_from].
  destruct (path_exists (numbered path counter) fs) eqn:Hc; cbn [negb].
  - assert (Hne : j ≠ counter) by (intros ->; congruence).
    destruct (IH (counter + 1)) as (k & Hk & Hrun & Hfree' & Hbelow); [lia | done |].
    exists k. split; [lia|]. split; [done|]. split; [done|].
    intros i Hi. destruct (decide (i = counter)) as [->|]; [done|].
    apply Hbelow. lia.
  - exists counter. split; [lia|]. split; [done|]. split; [done|]. intros i Hi. lia.
Qed.

(** Among more names than the file system has files, one is free. *)
Lemma numbered_free_exists (fs : SimpleFS.t) path :
  ∃ j, 1 ≤ j < 1 + S (size (SimpleFS.contents fs)) ∧
       path_exists (numbered path j) fs = false.
Proof.
  set (n := size (SimpleFS.contents fs)).
  set (names := numbered path <$> seq 1 (S n)).
  destruct (decide (Forall (λ q, is_Some (SimpleFS.contents fs !! q)) names))
    as [Hall|Hsome].
  - exfalso.
    assert (Hnd : NoDup names).
    { apply NoDup_fmap_2_strong; [|apply NoDup_seq].
      intros j k _ _. apply numbered_inj. }
    assert (Hsub : (list_to_set names : gset string) ⊆ dom (SimpleFS.contents fs)).
    { intros q Hq. apply elem_of_list_to_set in Hq. apply elem_of_dom.
      rewrite Forall_forall in Hall. by apply Hall. }
    apply subseteq_size in Hsub.
    rewrite size_list_to_set, size_dom in Hsub by done.
    unfold names in Hsub. rewrite length_fmap, length_seq in Hsub. fold n in Hsub. lia.
  - apply not_Forall_Exists in Hsome; [|apply _].
    apply Exists_exists in Hsome as (q & Hq & Hfree).
    apply list_elem_of_fmap in Hq as (j & -> & Hj). apply elem_of_seq in Hj.
    exists j. split; [lia|]. cbn. unfold SimpleFS.exists_.
    by apply bool_decide_eq_false_2.
Qed.

(** X25. [get_unique_filename] on a finite file system: the loop ends,
    within one step more than there are files, and the path it returns
    does not exist. It is the given path when that is free, and
    otherwise the path with [_k] put before the suffix for the least
    [k >= 1] whose name is free; more iterations allowed give the same
    answer. *)
Theorem get_unique_filename_is_fresh (fs : SimpleFS.t) (path : string) (fuel : nat) :
  size (SimpleFS.contents fs) < fuel →
  ∃ q, get_unique_filename fuel path fs = Some q ∧
       path_exists q fs = false ∧
       (path_exists path fs = false → q = path) ∧
       (path_exists path fs = true →
        ∃ k, 1 ≤ k ∧ q = numbered path k ∧
             ∀ i, 1 ≤ i < k → path_exists (numbered path i) fs = true).
Proof.
  intros Hfuel. unfold get_unique_filename.
  destruct (path_exists path fs) eqn:Hp; cbn [negb].
  - destruct (numbered_free_exists fs path) as (j & Hj & Hfree).
    destruct (unique_from_first_free fs path fuel 1 j) as (k & Hk & Hrun & Hfree' & Hbelow);
      [lia | done |].
    exists (numbered path k). split; [done|]. split; [done|]. split; [done|].
    intros _. exists k. split; [lia|]. split; [done|]. done.
  - exists path. split; [done|]. split; [done|]. split; [done|]. done.
Qed.

End UniqueFilenameProperties.

(** *** The categorizer on concrete inputs, continued *)
Section CategorizationMoreExamples.
Import CategorizationService Examples.

Lemma load_from_config_applies_rules_witness :
  categorize (load_from_config (Return custom_config) default_service).2 c2_file
  = Return {| Category.name := "Custom2" |}.
Proof.
  apply (load_from_config_applies_rules default_service custom_config c2_file "Custom2").
  - reflexivity.
  - discriminate.
Defined.

Lemma save_load_round_trip_witness :
  load_from_config (Return (save_to_config default_service)) default_service
  = (Return (), default_service).
Proof.
  apply (save_load_round_trip default_service). reflexivity.
Defined.

Lemma categorize_never_fails_witness :
  ∃ c, categorize (init_in shared_defaults None "Other") scan_pdf
       = Return {| Category.name := c |} ∧
       (c = "Other" ∨ c ∈ (effective_mappings_in shared_defaults None).*1).
Proof.
  apply (categorize_never_fails shared_defaults None "Other" scan_pdf).
  - discriminate.
  - apply (bool_decide_unpack _). vm_compute. exact I.
Defined.

(** A service built without a rule set after another one has added the
    rule sees that rule: the two share the module-level table. *)
Example categorize_after_shared_add_rule :
  categorize (init_in shared_defaults None "Other") scan_pdf
  = Return {| Category.name := "Scans" |} ∧
  categorize (init None "Other") scan_pdf
  = Return {| Category.name := "Documents" |}.
Proof. split; reflexivity. Qed.

(** With an empty category name in the shared table the categorization
    of a file of that rule raises. *)
Example categorize_empty_category_name_raises :
  ∃ e, categorize
         (init_in (category_mappings (add_rule "" ["PDF"] default_service))
                  None "Other") scan_pdf
       = Raise e.
Proof. eexists. reflexivity. Qed.

Lemma add_rule_overrides_witness :
  let e := lower (path_suffix (FileItem.path scan_pdf)) in
  (e ∈ normalize <$> ["PDF"] →
   categorize (add_rule "Scans" ["PDF"] default_service) scan_pdf
   = Return {| Category.name := "Scans" |}) ∧
  (e ∉ normalize <$> ["PDF"] →
   categorize (add_rule "Scans" ["PDF"] default_service) scan_pdf
   = categorize default_service scan_pdf).
Proof.
  apply (add_rule_overrides default_service "Scans" ["PDF"] scan_pdf).
  discriminate.
Defined.

Lemma remove_rule_removes_category_witness :
  let s' := remove_rule "Images" None default_service in
  (¬ "Images" ∈ get_categories s') ∧
  (∀ c, categorize s' photo = Return c → Category.name c = "Images" →
        default_category default_service = "Images") ∧
  (∀ c, categorize default_service photo = Return c → Category.name c ≠ "Images" →
        categorize s' photo = Return c).
Proof.
  apply (remove_rule_removes_category default_service "Images" photo).
  apply (bool_decide_unpack _). vm_compute. exact I.
Defined.

Lemma remove_rule_extensions_fall_back_witness :
  let e := lower (path_suffix (FileItem.path photo)) in
  let s' := remove_rule "Documents" (Some ["JPG"]) default_service in
  (e ∈ normalize <$> ["JPG"] →
   categorize s' photo = Category.new (default_category default_service)) ∧
  (e ∉ normalize <$> ["JPG"] →
   categorize s' photo = categorize default_service photo).
Proof.
  apply (remove_rule_extensions_fall_back default_service "Documents" ["JPG"] photo).
  apply (bool_decide_unpack _). vm_compute. exact I.
Defined.

(** Removing [JPG] from "Documents", which never listed it, unmaps
    [.jpg] from "Images": the photo falls back to "Other". *)
Example remove_rule_unmaps_foreign_extension :
  categorize (remove_rule "Documents" (Some ["JPG"]) default_service) photo
  = Return {| Category.name := "Other" |} ∧
  categorize default_service photo = Return {| Category.name := "Images" |}.
Proof. split; reflexivity. Qed.

Lemma categorize_batch_agrees_witness :
  ∃ m, categorize_batch default_service [photo; scan_pdf] = Return m ∧
       (∀ f, f ∈ [photo; scan_pdf] →
          m !! FileItem.path f
          = Some (match categorize default_service f with
                  | Return c => c
                  | Raise _ => {| Category.name := default_category default_service |}
                  end)) ∧
       (∀ p, p ∉ FileItem.path <$> [photo; scan_pdf] → m !! p = None).
Proof.
  apply (categorize_batch_agrees default_service [photo; scan_pdf]).
  discriminate.
Defined.

End CategorizationMoreExamples.

(** *** The duplicate detector and the unique names on concrete inputs *)
Section DuplicateMoreExamples.
Import DuplicateService Examples.

Lemma detected_duplicates_exclude_original_witness :
  ∃ groups,
    detect_duplicates scenario2_hexdigest {| hash_algorithm := "md5" |} scenario2_files
      = Return groups ∧
    Forall (λ g,
              DuplicateGroup.duplicates g = tail (DuplicateGroup.files g) ∧
              length (DuplicateGroup.duplicates g) + 1
                = length (DuplicateGroup.files g) ∧
              DuplicateGroup.total_size g
                = Return (foldr Z.add 0%Z
                            (FileItem.size <$> tail (DuplicateGroup.files g))))
           groups.
Proof.
  apply (detected_duplicates_exclude_original scenario2_hexdigest
           {| hash_algorithm := "md5" |} scenario2_files).
  - apply (bool_decide_unpack _). vm_compute. exact I.
  - repeat constructor; discriminate.
Defined.

Lemma get_unique_filename_is_fresh_witness :
  ∃ q, FileOrganizerPro.get_unique_filename 3 "/out/a.txt" crowded_fs = Some q ∧
       path_exists q crowded_fs = false ∧
       (path_exists "/out/a.txt" crowded_fs = false → q = "/out/a.txt") ∧
       (path_exists "/out/a.txt" crowded_fs = true →
        ∃ k, 1 ≤ k ∧ q = FileOrganizerPro.numbered "/out/a.txt" k ∧
             ∀ i, 1 ≤ i < k →
                  path_exists (FileOrganizerPro.numbered "/out/a.txt" i) crowded_fs = true).
Proof.
  apply (get_unique_filename_is_fresh crowded_fs "/out/a.txt" 3).
  vm_compute. lia.
Defined.

Example get_unique_filename_crowded :
  FileOrganizerPro.get_unique_filename 3 "/out/a.txt" crowded_fs = Some "/out/a_2.txt".
Proof. reflexivity. Qed.

End DuplicateMoreExamples.

(** * Equality of hashes *)
Section HashProperties.

Lemma string_eqb_sym (a b : string) : String.eqb a b = String.eqb b a.
Proof.
  destruct (String.eqb_spec a b) as [->|Hne].
  - by rewrite string_eqb_refl.
  - by destruct (String.eqb_spec b a); [congruence|].
Qed.

(** X26. [FileHash.matches] is an equivalence on hashes that ignores the
    case of the digest, and [FileItem.is_duplicate_of] is symmetric and
    never holds for a file without a hash (as [scan] creates them, and
    [detect_duplicates] leaves them). *)
Theorem hash_matches_equivalence (a b c : FileHash.t) (f g : FileItem.t) :
  FileHash.matches a a = true ∧
  FileHash.matches a b = FileHash.matches b a ∧
  (FileHash.matches a b = true → FileHash.matches b c = true →
   FileHash.matches a c = true) ∧
  FileHash.matches a {| FileHash.digest := lower (FileHash.digest a);
                        FileHash.algorithm := FileHash.algorithm a |} = true ∧
  FileItem.is_duplicate_of f g = FileItem.is_duplicate_of g f ∧
  (FileItem.hash f = None → FileItem.is_duplicate_of f g = false).
Proof.
  unfold FileItem.is_duplicate_of, FileHash.matches. repeat split.
  - by rewrite !string_eqb_refl.
  - by rewrite (string_eqb_sym (FileHash.algorithm a)),
         (string_eqb_sym (lower (FileHash.digest a))).
  - intros [H1 H2]%andb_true_iff [H3 H4]%andb_true_iff.
    apply String.eqb_eq in H1, H2, H3, H4.
    rewrite H1, H3, H2, H4. by rewrite !string_eqb_refl.
  - cbn. by rewrite lower_idemp, !string_eqb_refl.
  - destruct (FileItem.hash f) as [hf|], (FileItem.hash g) as [hg|]; try done.
    by rewrite (string_eqb_sym (FileHash.algorithm hf)),
         (string_eqb_sym (lower (FileHash.digest hf))).
  - by intros ->.
Qed.

End HashProperties.
